(** * AI-Assistant frontend: store, chat parser, notebook and upload controllers

    A shallow embedding of the TypeScript sources

    - [store/appStore.ts]               (module [AppStore]),
    - [components/layout/AIAssistant.tsx] (modules [Regex], [AIAssistant]),
    - the Databricks notebook component (module [Notebook]),
    - the upload zone component          (module [UploadZone]),

    together with the properties of the behavioural description that
    concern them. *)

From Stdlib Require Import String Ascii ZArith QArith Qround Lia.
From stdpp Require Import base tactics option list numbers relations.

Set Default Proof Using "Type".
Open Scope Z_scope.

(** ** JavaScript strings

    A JavaScript string is a sequence of UTF-16 code units; [substring],
    [startsWith], [trim] and the regular expressions of the sources all work
    on code units. *)

Definition jsstring := list N.

(** ASCII literals. *)
Definition js (s : string) : jsstring :=
  (λ a, N.of_nat (nat_of_ascii a)) <$> list_ascii_of_string s.

Definition LF : N := 10%N.

(** WhiteSpace and LineTerminator code units: what [String.prototype.trim]
    strips and what the class [\s] matches. *)
Definition is_space (c : N) : bool :=
  ((9 <=? c) && (c <=? 13) || (c =? 32) || (c =? 160) || (c =? 0x1680)
   || (0x2000 <=? c) && (c <=? 0x200A) || (c =? 0x2028) || (c =? 0x2029)
   || (c =? 0x202F) || (c =? 0x205F) || (c =? 0x3000) || (c =? 0xFEFF))%N.

Fixpoint trimStart (s : jsstring) : jsstring :=
  match s with
  | c :: s' => if is_space c then trimStart s' else s
  | [] => []
  end.

Definition trimEnd (s : jsstring) : jsstring := reverse (trimStart (reverse s)).

Definition trim (s : jsstring) : jsstring := trimEnd (trimStart s).

(** [s.startsWith(p)] *)
Fixpoint startsWith (p s : jsstring) : bool :=
  match p, s with
  | [], _ => true
  | a :: p', b :: s' => (a =? b)%N && startsWith p' s'
  | _ :: _, [] => false
  end.

(** [s.includes(p)] *)
Fixpoint includes (p s : jsstring) : bool :=
  startsWith p s || match s with [] => false | _ :: s' => includes p s' end.

(** [s.split(sep)] for a one-unit separator; the result is never empty. *)
Fixpoint split (sep : N) (s : jsstring) : list jsstring :=
  match s with
  | [] => [[]]
  | c :: s' =>
      if (c =? sep)%N then [] :: split sep s'
      else match split sep s' with
           | l :: ls => (c :: l) :: ls
           | [] => [[c]]
           end
  end.

(** [s.substring(a)] and [s.substring(0, b)] for in-range arguments. *)
Definition substring_from (a : nat) (s : jsstring) : jsstring := drop a s.
Definition substring_to (b : nat) (s : jsstring) : jsstring := take b s.

(** Truthiness of a string: non-empty. *)
Definition truthy (s : jsstring) : bool :=
  match s with [] => false | _ => true end.

(** ** The persisted application store ([store/appStore.ts]) *)

Module AppStore.

Inductive SourceType := csv | excel | json | database | api.
Inductive SourceStatus := connected | disconnected | error.

Record DataSource := mkDataSource {
  ds_id : jsstring;
  ds_name : jsstring;
  ds_type : SourceType;
  connectedAt : Z;
  ds_status : SourceStatus
}.

(** [Omit<DataSource, 'id' | 'connectedAt'>] *)
Record SourceInput := mkSourceInput {
  in_name : jsstring;
  in_type : SourceType;
  in_status : SourceStatus
}.

Inductive ArtifactType := chart | table | kpi | model.

(** [data : unknown] is kept as its JSON text. *)
Record QueryArtifact := mkArtifact {
  a_type : ArtifactType;
  a_data : jsstring;
  a_title : option jsstring
}.

Record Query := mkQuery {
  q_id : jsstring;
  number : Z;
  prompt : jsstring;
  code : jsstring;
  output : jsstring;
  artifacts : list QueryArtifact;
  createdAt : Z;
  updatedAt : Z
}.

(** [Partial<Query>]: [None] is an absent key. *)
Record QueryUpdates := mkUpdates {
  u_id : option jsstring;
  u_number : option Z;
  u_prompt : option jsstring;
  u_code : option jsstring;
  u_output : option jsstring;
  u_artifacts : option (list QueryArtifact);
  u_createdAt : option Z;
  u_updatedAt : option Z
}.

Inductive Role := user | assistant.

Record AIMessage := mkMessage {
  m_id : jsstring;
  role : Role;
  content : jsstring;
  m_code : option jsstring;
  suggestions : option (list jsstring);
  timestamp : Z
}.

Record AppState := mkState {
  dataSources : list DataSource;
  isConnected : bool;
  queries : list Query;
  activeQueryId : option jsstring;
  aiMessages : list AIMessage;
  isSidebarCollapsed : bool;
  isAIPanelCollapsed : bool;
  aiScrollPosition : Q;
  activeArtifact : option QueryArtifact;
  activeArtifactCode : option jsstring
}.

(** [set(partial)]: one helper per group of fields a mutation writes. *)
Definition set_sources (ds : list DataSource) (c : bool) (s : AppState) :=
  mkState ds c (queries s) (activeQueryId s) (aiMessages s)
    (isSidebarCollapsed s) (isAIPanelCollapsed s) (aiScrollPosition s)
    (activeArtifact s) (activeArtifactCode s).

Definition set_queries (qs : list Query) (s : AppState) :=
  mkState (dataSources s) (isConnected s) qs (activeQueryId s) (aiMessages s)
    (isSidebarCollapsed s) (isAIPanelCollapsed s) (aiScrollPosition s)
    (activeArtifact s) (activeArtifactCode s).

Definition set_active (a : option jsstring) (s : AppState) :=
  mkState (dataSources s) (isConnected s) (queries s) a (aiMessages s)
    (isSidebarCollapsed s) (isAIPanelCollapsed s) (aiScrollPosition s)
    (activeArtifact s) (activeArtifactCode s).

Definition set_messages (ms : list AIMessage) (s : AppState) :=
  mkState (dataSources s) (isConnected s) (queries s) (activeQueryId s) ms
    (isSidebarCollapsed s) (isAIPanelCollapsed s) (aiScrollPosition s)
    (activeArtifact s) (activeArtifactCode s).

Definition set_ui (sb ai : bool) (pos : Q) (s : AppState) :=
  mkState (dataSources s) (isConnected s) (queries s) (activeQueryId s)
    (aiMessages s) sb ai pos (activeArtifact s) (activeArtifactCode s).

Definition set_artifact (a : option QueryArtifact) (c : option jsstring)
    (s : AppState) :=
  mkState (dataSources s) (isConnected s) (queries s) (activeQueryId s)
    (aiMessages s) (isSidebarCollapsed s) (isAIPanelCollapsed s)
    (aiScrollPosition s) a c.

(** The mutations.  [crypto.randomUUID()] and [new Date()] are inputs:
    [uuid] and the time stamps are what those calls returned. *)

Definition addDataSource (uuid : jsstring) (now : Z) (source : SourceInput)
    (s : AppState) : AppState :=
  let newSource :=
    mkDataSource uuid (in_name source) (in_type source) now (in_status source) in
  set_sources (dataSources s ++ [newSource]) true s.

Definition removeDataSource (id : jsstring) (s : AppState) : AppState :=
  let newSources := filter (λ d, ds_id d ≠ id) (dataSources s) in
  set_sources newSources (bool_decide (0 < length newSources)%nat) s.

Definition addQuery (uuid : jsstring) (created updated : Z)
    (prompt code : jsstring) (s : AppState) : Query * AppState :=
  let newQuery :=
    mkQuery uuid (Z.of_nat (length (queries s)) + 1) prompt code [] []
      created updated in
  (newQuery, set_active (Some (q_id newQuery))
               (set_queries (queries s ++ [newQuery]) s)).

(** [{ ...q, ...updates, updatedAt: new Date() }] *)
Definition merge (q : Query) (u : QueryUpdates) (now : Z) : Query :=
  mkQuery (default (q_id q) (u_id u)) (default (number q) (u_number u))
    (default (prompt q) (u_prompt u)) (default (code q) (u_code u))
    (default (output q) (u_output u)) (default (artifacts q) (u_artifacts u))
    (default (createdAt q) (u_createdAt u)) now.

Definition updateQuery (id : jsstring) (updates : QueryUpdates) (now : Z)
    (s : AppState) : AppState :=
  set_queries
    ((λ q, if decide (q_id q = id) then merge q updates now else q)
       <$> queries s) s.

Definition removeQuery (id : jsstring) (s : AppState) : AppState :=
  mkState (dataSources s) (isConnected s)
    (filter (λ q, q_id q ≠ id) (queries s))
    (if decide (activeQueryId s = Some id) then None else activeQueryId s)
    (aiMessages s) (isSidebarCollapsed s) (isAIPanelCollapsed s)
    (aiScrollPosition s) (activeArtifact s) (activeArtifactCode s).

Definition setActiveQuery (id : option jsstring) (s : AppState) : AppState :=
  set_active id s.

(** [state.queries.find(q => q.id === state.activeQueryId) || null] *)
Definition getActiveQuery (s : AppState) : option Query :=
  list_find (λ q, Some (q_id q) = activeQueryId s) (queries s) ≫= (λ p, Some p.2).

Definition addAIMessage (uuid : jsstring) (now : Z) (r : Role)
    (content : jsstring) (code : option jsstring)
    (suggestions : option (list jsstring)) (s : AppState) : AppState :=
  set_messages (aiMessages s ++ [mkMessage uuid r content code suggestions now]) s.

Definition clearAIMessages (s : AppState) : AppState := set_messages [] s.

Definition toggleSidebar (s : AppState) : AppState :=
  set_ui (negb (isSidebarCollapsed s)) (isAIPanelCollapsed s) (aiScrollPosition s) s.

Definition toggleAIPanel (s : AppState) : AppState :=
  set_ui (isSidebarCollapsed s) (negb (isAIPanelCollapsed s)) (aiScrollPosition s) s.

Definition setAIScrollPosition (position : Q) (s : AppState) : AppState :=
  set_ui (isSidebarCollapsed s) (isAIPanelCollapsed s) position s.

(** [activeArtifactCode: code || null] *)
Definition setActiveArtifact (artifact : option QueryArtifact)
    (code : option jsstring) (s : AppState) : AppState :=
  set_artifact artifact
    (match code with Some c => if truthy c then Some c else None | None => None end) s.

(** The mutation entry points as data, and the store's step function. *)
Inductive Mutation :=
| AddDataSource (uuid : jsstring) (now : Z) (source : SourceInput)
| RemoveDataSource (id : jsstring)
| AddQuery (uuid : jsstring) (created updated : Z) (prompt code : jsstring)
| UpdateQuery (id : jsstring) (updates : QueryUpdates) (now : Z)
| RemoveQuery (id : jsstring)
| SetActiveQuery (id : option jsstring)
| AddAIMessage (uuid : jsstring) (now : Z) (r : Role) (content : jsstring)
    (code : option jsstring) (suggestions : option (list jsstring))
| ClearAIMessages
| ToggleSidebar
| ToggleAIPanel
| SetAIScrollPosition (position : Q)
| SetActiveArtifact (artifact : option QueryArtifact) (code : option jsstring).

Definition step (mu : Mutation) (s : AppState) : AppState :=
  match mu with
  | AddDataSource uuid now source => addDataSource uuid now source s
  | RemoveDataSource id => removeDataSource id s
  | AddQuery uuid created updated prompt code =>
      (addQuery uuid created updated prompt code s).2
  | UpdateQuery id updates now => updateQuery id updates now s
  | RemoveQuery id => removeQuery id s
  | SetActiveQuery id => setActiveQuery id s
  | AddAIMessage uuid now r content code suggestions =>
      addAIMessage uuid now r content code suggestions s
  | ClearAIMessages => clearAIMessages s
  | ToggleSidebar => toggleSidebar s
  | ToggleAIPanel => toggleAIPanel s
  | SetAIScrollPosition position => setAIScrollPosition position s
  | SetActiveArtifact artifact code => setActiveArtifact artifact code s
  end.

(** Active-query integrity: exactly one of "no active query" and "the
    active identifier is the [id] of a held query". *)
Definition no_active (s : AppState) : Prop := activeQueryId s = None.

Definition active_held (s : AppState) : Prop :=
  ∃ q, q ∈ queries s ∧ activeQueryId s = Some (q_id q).

Definition active_integrity (s : AppState) : Prop :=
  (no_active s ∧ ¬ active_held s) ∨ (¬ no_active s ∧ active_held s).

(** The arguments under which a mutation cannot leave a dangling active
    identifier: [setActiveQuery] is given [null] or a held identifier, and
    [updateQuery] does not rewrite the [id] field. *)
Definition keeps_ids (mu : Mutation) (s : AppState) : Prop :=
  match mu with
  | SetActiveQuery (Some id) => ∃ q, q ∈ queries s ∧ q_id q = id
  | UpdateQuery id updates _ => u_id updates = None ∨ u_id updates = Some id
  | _ => True
  end.

(** A run of [addQuery] calls: the queries the calls returned, in call
    order, and the final store. *)
Record AddCall := mkAddCall {
  c_uuid : jsstring;
  c_created : Z;
  c_updated : Z;
  c_prompt : jsstring;
  c_code : jsstring
}.

Fixpoint addQueries (calls : list AddCall) (s : AppState) : list Query * AppState :=
  match calls with
  | [] => ([], s)
  | c :: calls' =>
      let '(q, s') :=
        addQuery (c_uuid c) (c_created c) (c_updated c) (c_prompt c) (c_code c) s in
      let '(qs, s'') := addQueries calls' s' in
      (q :: qs, s'')
  end.

(** A store with nothing in it, and one holding a single query. *)
Definition empty : AppState :=
  mkState [] false [] None [] false false 0%Q None None.

Definition sample_query : Query :=
  mkQuery (js "q-1") 1 (js "plot sales") (js "df.plot()") [] [] 0 0.

Definition one_query : AppState :=
  mkState [] false [sample_query] (Some (js "q-1")) [] false false 0%Q None None.

Definition three_calls : list AddCall :=
  [mkAddCall (js "u-1") 10 10 (js "load") (js "df = load()");
   mkAddCall (js "u-2") 20 21 (js "plot") (js "df.plot()");
   mkAddCall (js "u-3") 30 30 (js "fit") (js "model.fit(df)")].

End AppStore.

(** ** A backtracking matcher for the regular expressions of the sources

    The matcher follows the continuation semantics of ECMAScript patterns:
    [m r st k] tries the ways [r] can match at [st] in priority order and
    returns the first one the continuation [k] accepts. *)

Module Regex.

Inductive regex :=
| Lit (l : jsstring)              (** a run of pattern characters *)
| Cls (p : N → bool)              (** a character class *)
| Bol                             (** [^] without the [m] flag *)
| Eol                             (** [$] without the [m] flag *)
| Eps                             (** the empty pattern *)
| Seq (r1 r2 : regex)
| Alt (r1 r2 : regex)             (** [r1|r2] *)
| Star (greedy : bool) (r : regex) (** [r*] and [r*?] *)
| Grp (r : regex).                (** a capturing group [(r)] *)

(** [r?] and [r+], both greedy. *)
Definition Opt (r : regex) : regex := Alt r Eps.
Definition Plus (r : regex) : regex := Seq r (Star true r).

(** Position in the input, the input from there on, and the spans of the
    groups closed so far (in closing order, which is the group numbering
    for groups that are neither nested nor under a quantifier). *)
Record mstate := mkM {
  pos : nat;
  rest : jsstring;
  caps : list (nat * nat)
}.

(** Canonicalize of the [i] flag.  A code unit of 128 or more never
    canonicalizes to one below 128, and every pattern character of the
    sources is ASCII, so upper-casing [a-z] decides every comparison the
    sources make. *)
Definition canonicalize (ci : bool) (c : N) : N :=
  if ci && (97 <=? c)%N && (c <=? 122)%N then (c - 32)%N else c.

Fixpoint lit_match (ci : bool) (l s : jsstring) : option jsstring :=
  match l, s with
  | [], _ => Some s
  | a :: l', b :: s' =>
      if (canonicalize ci a =? canonicalize ci b)%N then lit_match ci l' s'
      else None
  | _ :: _, [] => None
  end.

(** The loop of a starred pattern whose body is matched by [body].  An
    iteration that consumes nothing is rejected, so at most as many
    iterations as code units are left can succeed: [n] bounds them.  The
    greedy loop tries one more iteration before the continuation, the
    lazy loop the continuation first. *)
Fixpoint star_loop (greedy : bool)
    (body : mstate → (mstate → option mstate) → option mstate)
    (k : mstate → option mstate) (n : nat) (st : mstate) : option mstate :=
  match n with
  | O => k st
  | S n' =>
      let iterate (_ : unit) :=
        body st
          (λ st', if (pos st' =? pos st)%nat then None
                  else star_loop greedy body k n' st') in
      if greedy then
        match iterate () with
        | Some x => Some x
        | None => k st
        end
      else
        match k st with
        | Some x => Some x
        | None => iterate ()
        end
  end.

Fixpoint m (ci : bool) (r : regex) (st : mstate)
    (k : mstate → option mstate) {struct r} : option mstate :=
  match r with
  | Lit l =>
      match lit_match ci l (rest st) with
      | Some s' => k (mkM (pos st + length l) s' (caps st))
      | None => None
      end
  | Cls p =>
      match rest st with
      | c :: s' => if p c then k (mkM (S (pos st)) s' (caps st)) else None
      | [] => None
      end
  | Bol => if (pos st =? 0)%nat then k st else None
  | Eol => match rest st with [] => k st | _ :: _ => None end
  | Eps => k st
  | Seq r1 r2 => m ci r1 st (λ st1, m ci r2 st1 k)
  | Alt r1 r2 =>
      match m ci r1 st k with
      | Some x => Some x
      | None => m ci r2 st k
      end
  | Star g r1 => star_loop g (m ci r1) k (length (rest st)) st
  | Grp r1 =>
      m ci r1 st (λ st', k (mkM (pos st') (rest st') (caps st' ++ [(pos st, pos st')])))
  end.

(** [RegExp.prototype.exec] without [g] and [y], on the suffix [s] that
    starts at index [p]: the match that starts leftmost.  The result is
    the index of the match and the final matcher state. *)
Fixpoint exec_from (ci : bool) (r : regex) (p : nat) (s : jsstring)
    : option (nat * mstate) :=
  match m ci r (mkM p s []) Some with
  | Some st => Some (p, st)
  | None =>
      match s with
      | [] => None
      | _ :: s' => exec_from ci r (S p) s'
      end
  end.

Definition exec (ci : bool) (r : regex) (s : jsstring) : option (nat * mstate) :=
  exec_from ci r 0 s.

(** The text of capture group [n] (numbered from 1) of a match on [s]. *)
Definition group (n : nat) (s : jsstring) (st : mstate) : jsstring :=
  match caps st !! (n - 1)%nat with
  | Some (b, e) => take (e - b) (drop b s)
  | None => []
  end.

(** [s.replace(re, '')] with the [g] flag, on the suffix [s] that starts
    at index [p]: every match is cut out; after an empty match the search
    moves on by one code unit. *)
Fixpoint replace_from (ci : bool) (r : regex) (fuel p : nat) (s : jsstring)
    : jsstring :=
  match fuel with
  | O => s
  | S fuel' =>
      match exec_from ci r p s with
      | None => s
      | Some (i, st) =>
          if (pos st =? i)%nat then
            match drop (i - p) s with
            | [] => s
            | c :: s' => take (i - p) s ++ c :: replace_from ci r fuel' (S i) s'
            end
          else take (i - p) s ++ replace_from ci r fuel' (pos st) (rest st)
      end
  end.

Definition replace_all (ci : bool) (r : regex) (s : jsstring) : jsstring :=
  replace_from ci r (S (length s)) 0 s.

(** What a pattern can match, as a relation between the matcher's
    position before and after; groups do not restrict it. *)
Fixpoint den (ci : bool) (r : regex) (x y : nat * jsstring) : Prop :=
  match r with
  | Lit l => lit_match ci l x.2 = Some y.2 ∧ y.1 = (x.1 + length l)%nat
  | Cls p => ∃ c, x.2 = c :: y.2 ∧ p c = true ∧ y.1 = S x.1
  | Bol => x.1 = 0%nat ∧ y = x
  | Eol => x.2 = [] ∧ y = x
  | Eps => y = x
  | Seq r1 r2 => ∃ z, den ci r1 x z ∧ den ci r2 z y
  | Alt r1 r2 => den ci r1 x y ∨ den ci r2 x y
  | Star _ r1 => rtc (den ci r1) x y
  | Grp r1 => den ci r1 x y
  end.

Definition at_state (st : mstate) : nat * jsstring := (pos st, rest st).

End Regex.

(** ** The assistant panel ([components/layout/AIAssistant.tsx]) *)

Module AIAssistant.
Import Regex.

(** [\w] *)
Definition word (c : N) : bool :=
  ((48 <=? c) && (c <=? 57) || (65 <=? c) && (c <=? 90)
   || (97 <=? c) && (c <=? 122) || (c =? 95))%N.

(** [[\s\S]] *)
Definition any (c : N) : bool := is_space c || negb (is_space c).

Definition fence : jsstring := js "```".

(** The pattern [/```(?:\w+)?\n?([\s\S]*?)```/]. *)
Definition code_re : regex :=
  Seq (Lit fence)
    (Seq (Opt (Plus (Cls word)))
       (Seq (Opt (Lit [LF]))
          (Seq (Grp (Star false (Cls any))) (Lit fence)))).

(** The pattern [(?:^|\n)(?:Suggestions|Suggested Next Steps):] followed by
    the group [([\s\S]*] [)] and [$], with the flag [i]. *)
Definition suggestion_re : regex :=
  Seq (Alt Bol (Lit [LF]))
    (Seq (Alt (Lit (js "Suggestions")) (Lit (js "Suggested Next Steps")))
       (Seq (Lit (js ":"))
          (Seq (Grp (Star true (Cls any))) Eol))).

(** The second marker literal of the suggestion filter, as the source file
    spells it: the three code units U+00E2 U+20AC U+00A2. *)
Definition bullet_literal : jsstring := [0xE2; 0x20AC; 0xA2]%N.

Definition hyphen : jsstring := js "-".

Record Parsed := mkParsed {
  p_content : jsstring;
  p_code : option jsstring;
  p_suggestions : option (list jsstring)
}.

(** The code extraction step of [handleSend]: the working text and [code]. *)
Definition extract_code (response : jsstring) : jsstring * option jsstring :=
  let fullResponse := response in
  if includes fence fullResponse then
    let codeMatch := exec false code_re fullResponse in
    let code :=
      match codeMatch with
      | Some (_, st) => Some (trim (group 1 fullResponse st))
      | None => None
      end in
    match code with
    | Some c =>
        if truthy c then (trim (replace_all false code_re fullResponse), code)
        else (fullResponse, code)
    | None => (fullResponse, code)
    end
  else (fullResponse, None).

(** The bullet lines of the text captured after the section marker. *)
Definition suggestion_lines (suggestionText : jsstring) : list jsstring :=
  (λ line, trim (substring_from 1 line))
    <$> List.filter
          (λ line, startsWith hyphen line || startsWith bullet_literal line)
          (trim <$> split LF suggestionText).

(** The parsing part of [handleSend], from [response.response] to the
    arguments of [addAIMessage('assistant', ...)]. *)
Definition parseResponse (response : jsstring) : Parsed :=
  let '(fullResponse, code) := extract_code response in
  match exec true suggestion_re fullResponse with
  | Some (index, st) =>
      let suggestions := suggestion_lines (group 1 fullResponse st) in
      mkParsed (trim (substring_to index fullResponse)) code
        (if bool_decide (0 < length suggestions)%nat then Some suggestions else None)
  | None => mkParsed fullResponse code None
  end.

(** Texts the parser leaves alone.  A fence is the three backticks
    anywhere in the text; a section marker is one of the two section
    words, in any letter case, directly followed by a colon, at the very
    start of the text or right after a line feed. *)
Definition has_fence (s : jsstring) : Prop := ∃ a b, s = a ++ fence ++ b.

Definition same_letters (u v : jsstring) : Prop :=
  canonicalize true <$> u = canonicalize true <$> v.

Definition has_marker (s : jsstring) : Prop :=
  ∃ before word after,
    s = before ++ word ++ js ":" ++ after
    ∧ (before = [] ∨ ∃ b, before = b ++ [LF])
    ∧ (same_letters word (js "Suggestions")
       ∨ same_letters word (js "Suggested Next Steps")).

(** The reply of the behavioural description's parser example. *)
Definition example_reply : jsstring :=
  js "Here is code:" ++ [LF] ++ js "```python" ++ [LF] ++ js "print(1)" ++ [LF]
    ++ js "```" ++ [LF] ++ js "Suggestions:" ++ [LF] ++ js "- try X" ++ [LF]
    ++ js "- try Y".

(** The bullet character U+2022, and a reply whose suggestions use it. *)
Definition bullet : N := 0x2022%N.

Definition bulleted_reply : jsstring :=
  js "Suggestions:" ++ [LF] ++ [bullet] ++ js " try X".

(** The same reply with a hyphen for the bullet. *)
Definition hyphen_reply : jsstring :=
  js "Suggestions:" ++ [LF] ++ js "- try X".

(** *** The send flow and the scroll behaviour

    The panel keeps the transcript's scroll geometry next to the store.
    [scrollTop] may be fractional; the two heights are whole pixels.  The
    geometry is that of the transcript element, which the component
    renders only while [isAIPanelCollapsed] is off: a collapsed panel
    renders neither the transcript nor the marker after the last message,
    [messagesEndRef.current] is [null], and the three fields are neither
    read nor written. *)

Record Panel := mkPanel {
  store : AppStore.AppState;
  input : jsstring;
  isTyping : bool;
  shouldAutoScroll : bool;
  scrollTop : Q;
  scrollHeight : Z;
  clientHeight : Z
}.

Definition with_scroll (flag : bool) (top : Q) (height : Z) (p : Panel) : Panel :=
  mkPanel (store p) (input p) (isTyping p) flag top height (clientHeight p).

Definition with_store (s : AppStore.AppState) (p : Panel) : Panel :=
  mkPanel s (input p) (isTyping p) (shouldAutoScroll p) (scrollTop p)
    (scrollHeight p) (clientHeight p).

Definition with_input (i : jsstring) (t : bool) (p : Panel) : Panel :=
  mkPanel (store p) i t (shouldAutoScroll p) (scrollTop p) (scrollHeight p)
    (clientHeight p).

(** [scrollHeight - Math.ceil(scrollTop) - clientHeight < 250] *)
Definition isNearBottom (p : Panel) : bool :=
  scrollHeight p - Qceiling (scrollTop p) - clientHeight p <? 250.

(** The scroll listener. *)
Definition handleScroll (p : Panel) : Panel :=
  let p := with_store (AppStore.setAIScrollPosition (scrollTop p) (store p)) p in
  with_scroll (isNearBottom p) (scrollTop p) (scrollHeight p) p.

(** [scrollIntoView(...)] on the marker that follows the last message:
    the platform brings the marker into view, which leaves the transcript
    at its largest scroll offset. *)
Definition scrollIntoView (p : Panel) : Panel :=
  with_scroll (shouldAutoScroll p)
    (inject_Z (Z.max 0 (scrollHeight p - clientHeight p))) (scrollHeight p) p.

(** The effect on [[aiMessages, shouldAutoScroll]]:
    [if (shouldAutoScroll) messagesEndRef.current?.scrollIntoView(...)].
    The optional call does nothing while the panel is collapsed. *)
Definition autoScrollEffect (p : Panel) : Panel :=
  if shouldAutoScroll p then
    if AppStore.isAIPanelCollapsed (store p) then p else scrollIntoView p
  else p.

(** A scroll event at offset [top]: the listener runs, and the effect
    re-runs when the listener changed [shouldAutoScroll]. *)
Definition onScroll (top : Q) (p : Panel) : Panel :=
  let p' := handleScroll (with_scroll (shouldAutoScroll p) top (scrollHeight p) p) in
  if bool_decide (shouldAutoScroll p' = shouldAutoScroll p) then p'
  else autoScrollEffect p'.

(** The render that follows a change of the transcript: an expanded
    panel lays the new message out ([height] more pixels of content), a
    collapsed one renders no transcript. *)
Definition rendered (height : Z) (p : Panel) : Panel :=
  if AppStore.isAIPanelCollapsed (store p) then p
  else with_scroll (shouldAutoScroll p) (scrollTop p) (scrollHeight p + height) p.

(** A message arrives in the store's transcript while the panel is mounted:
    the component renders again and the effect runs. *)
Definition messageAppended (uuid : jsstring) (now : Z) (r : AppStore.Role)
    (content : jsstring) (code : option jsstring)
    (suggestions : option (list jsstring)) (height : Z) (p : Panel) : Panel :=
  let p := with_store
             (AppStore.addAIMessage uuid now r content code suggestions (store p)) p in
  autoScrollEffect (rendered height p).

(** [handleSend] up to its first [await]. *)
Definition handleSend_begin (uuid : jsstring) (now : Z) (text : option jsstring)
    (height : Z) (p : Panel) : Panel :=
  let userInput :=
    match text with
    | Some t => if truthy t then t else input p
    | None => input p
    end in
  if negb (truthy (trim userInput)) then p
  else
    let p := with_input [] true p in
    let p := with_scroll true (scrollTop p) (scrollHeight p) p in
    messageAppended uuid now AppStore.user userInput None None height p.

Definition backend_error : jsstring :=
  js "I encountered an issue connecting to the backend. Please make sure the server is running at http://localhost:8000.".

(** [handleSend] after [chatService.sendMessage] settles: [response] is
    [Some] of the response text, or [None] when the call threw. *)
Definition handleSend_end (uuid : jsstring) (now : Z) (response : option jsstring)
    (height : Z) (p : Panel) : Panel :=
  let p :=
    match response with
    | Some text =>
        let r := parseResponse text in
        messageAppended uuid now AppStore.assistant (p_content r) (p_code r)
          (p_suggestions r) height p
    | None =>
        messageAppended uuid now AppStore.assistant backend_error None None height p
    end in
  with_input (input p) false p.

(** The offset at which the transcript of [p], grown by [height], is
    scrolled to its bottom. *)
Definition bottom_after (height : Z) (p : Panel) : Q :=
  inject_Z (Z.max 0 (scrollHeight p + height - clientHeight p)).

(** A transcript of 2000 pixels in a 500 pixel window, scrolled to the
    top, as the scroll listener leaves it. *)
Definition far_panel : Panel :=
  handleScroll (mkPanel AppStore.empty [] false true 0%Q 2000 500).

(** The same transcript 100 pixels above its bottom. *)
Definition near_panel : Panel :=
  handleScroll (mkPanel AppStore.empty [] false true (inject_Z 1400) 2000 500).

(** The near transcript of a panel that has since been collapsed. *)
Definition collapsed_panel : Panel :=
  with_store (AppStore.toggleAIPanel (store near_panel)) near_panel.

(** [handleSend] as a whole, when nothing else happens while the chat
    call is pending: the two stages with the identifiers, time stamps and
    laid-out heights of the two messages. *)
Definition handleSend (uuid1 : jsstring) (now1 : Z) (uuid2 : jsstring) (now2 : Z)
    (text : option jsstring) (response : option jsstring) (height1 height2 : Z)
    (p : Panel) : Panel :=
  let userInput :=
    match text with
    | Some t => if truthy t then t else input p
    | None => input p
    end in
  if negb (truthy (trim userInput)) then p
  else handleSend_end uuid2 now2 response height2
         (handleSend_begin uuid1 now1 text height1 p).

(** [handleSendToSandbox]; the navigation is to the sandbox page. *)
Definition handleSendToSandbox (uuid : jsstring) (created updated : Z)
    (code prompt : jsstring) (p : Panel) : Panel :=
  with_store (AppStore.addQuery uuid created updated prompt code (store p)).2 p.

(** No blank at either end. *)
Definition no_lead (s : jsstring) : Prop :=
  match s with c :: _ => is_space c = false | [] => True end.

Definition trimmed (s : jsstring) : Prop := no_lead s ∧ no_lead (reverse s).

End AIAssistant.

(** ** The notebook ([DatabricksNotebook]) *)

Module Notebook.

Inductive CellStatus := idle | running | success | error.
Inductive CellType := code_cell | markdown_cell.

Record Cell := mkCell {
  id : jsstring;
  code : jsstring;
  output : option jsstring;
  status : CellStatus;
  type : CellType
}.

Record ExecutionResult := mkResult {
  r_status : jsstring;
  r_output : option jsstring;
  r_error : option jsstring
}.

(** How the promise of [databricksService.executeCode] settles. *)
Inductive Settled := Resolved (result : ExecutionResult) | Rejected.

(** What [runAll] does to the outside, in order. *)
Inductive Event :=
| ExecuteCode (clusterId code : jsstring)
| ToastError (message : jsstring).

Definition with_status (st : CellStatus) (c : Cell) : Cell :=
  mkCell (id c) (code c) (output c) st (type c).

Definition with_result (st : CellStatus) (o : option jsstring) (c : Cell) : Cell :=
  mkCell (id c) (code c) o st (type c).

(** [cells.map(c => c.id === i ? f(c) : c)] *)
Definition update (i : jsstring) (f : Cell → Cell) (cells : list Cell) : list Cell :=
  (λ c, if decide (id c = i) then f c else c) <$> cells.

(** [{ ...c, status: c.status === 'running' ? 'running' : 'idle' }] *)
Definition reset (c : Cell) : Cell :=
  with_status (match status c with running => running | _ => idle end) c.

(** [a || b] on optional strings. *)
Definition or_else (a b : option jsstring) : option jsstring :=
  match a with
  | Some s => if truthy s then a else b
  | None => b
  end.

Definition no_cluster : jsstring := js "Please select a Databricks cluster first".

Section Remote.
(** The execution backend: a state of its own and the settlement of each
    call. *)
Context {World : Type}.
Variable executeCode : jsstring → jsstring → World → Settled * World.

(** The [for (const cell of cells)] loop of [runAll]: [todo] is what is
    left of the captured [cells], [prev] the state the updaters see. *)
Fixpoint runAll_loop (clusterId : jsstring) (todo prev : list Cell) (w : World)
    : list Cell * World * list Event :=
  match todo with
  | [] => (prev, w, [])
  | cell :: todo' =>
      let prev := update (id cell) (with_status running) prev in
      match type cell with
      | markdown_cell =>
          runAll_loop clusterId todo'
            (update (id cell) (with_status success) prev) w
      | code_cell =>
          match executeCode clusterId (code cell) w with
          | (Resolved result, w') =>
              let isError := bool_decide (r_status result = js "error") in
              let prev :=
                update (id cell)
                  (with_result (if isError then error else success)
                     (or_else (r_error result) (r_output result))) prev in
              if isError then
                (prev, w',
                 [ExecuteCode clusterId (code cell);
                  ToastError (js "Execution stopped at cell " ++ id cell)])
              else
                let '(cells', w'', evs) := runAll_loop clusterId todo' prev w' in
                (cells', w'', ExecuteCode clusterId (code cell) :: evs)
          | (Rejected, w') =>
              (update (id cell)
                 (with_result error (Some (js "System Error during Run All"))) prev,
               w', [ExecuteCode clusterId (code cell)])
          end
      end
  end.

(** [runAll]; [clusterId] is [None] while no cluster was selected.  The
    captured [cells] are also the state the first updater sees. *)
Definition runAll (clusterId : option jsstring) (cells : list Cell) (w : World)
    : list Cell * World * list Event :=
  match clusterId with
  | Some cid =>
      if truthy cid then runAll_loop cid cells (reset <$> cells) w
      else (cells, w, [ToastError no_cluster])
  | None => (cells, w, [ToastError no_cluster])
  end.

(** The cells before the first failure: every code cell of [pre] settles
    without error when run in order from [w]; the result is the backend
    state after them. *)
Fixpoint runs_clean (clusterId : jsstring) (pre : list Cell) (w : World)
    : option World :=
  match pre with
  | [] => Some w
  | cell :: pre' =>
      match type cell with
      | markdown_cell => runs_clean clusterId pre' w
      | code_cell =>
          match executeCode clusterId (code cell) w with
          | (Resolved result, w') =>
              if bool_decide (r_status result = js "error") then None
              else runs_clean clusterId pre' w'
          | (Rejected, _) => None
          end
      end
  end.

(** A code cell resolves to error: the call reports status [error] or
    throws. *)
Definition fails (clusterId : jsstring) (cell : Cell) (w : World) : bool :=
  match type cell, executeCode clusterId (code cell) w with
  | code_cell, (Resolved result, _) => bool_decide (r_status result = js "error")
  | code_cell, (Rejected, _) => true
  | markdown_cell, _ => false
  end.

End Remote.

(** The code strings sent to the backend, in order. *)
Definition executed (evs : list Event) : list jsstring :=
  evs ≫= (λ e, match e with ExecuteCode _ c => [c] | ToastError _ => [] end).

Definition is_code (c : Cell) : bool :=
  match type c with code_cell => true | markdown_cell => false end.

(** A backend for examples: it reports status [error] exactly for the
    code [boom], and has no state. *)
Definition sample_backend (clusterId code : jsstring) (w : unit)
    : Settled * unit :=
  if decide (code = js "boom")
  then (Resolved (mkResult (js "error") None (Some (js "NameError"))), w)
  else (Resolved (mkResult (js "ok") (Some (js "42")) None), w).

Definition cellA : Cell := mkCell (js "1") (js "boom") None idle code_cell.
Definition cellB : Cell :=
  mkCell (js "2") (js "print(42)") (Some (js "42")) success code_cell.
Definition cellC : Cell := mkCell (js "3") (js "x = 1") None idle code_cell.

(** The two reordering handlers of the cell at [index] of [cells]; the
    index is the one [cells.map] passed, so it is within the list. *)
Definition swap (cells : list Cell) (i j : nat) : list Cell :=
  match cells !! i, cells !! j with
  | Some a, Some b => <[j:=a]> (<[i:=b]> cells)
  | _, _ => cells
  end.

Definition onMoveUp (cells : list Cell) (index : nat) : list Cell :=
  if (index =? 0)%nat then cells else swap cells index (index - 1).

Definition onMoveDown (cells : list Cell) (index : nat) : list Cell :=
  if Z.of_nat index =? Z.of_nat (length cells) - 1 then cells
  else swap cells index (index + 1).

(** *** The other handlers of the notebook *)

(** [addCell(type)]; [fresh] is what
    [Math.random().toString(36).substr(2, 9)] returned. *)
Definition addCell (fresh : jsstring) (t : CellType) (cells : list Cell)
    : list Cell :=
  cells
    ++ [mkCell fresh
          (match t with code_cell => [] | markdown_cell => js "### New Markdown Cell" end)
          None idle t].

Definition handleCellChange (i value : jsstring) (cells : list Cell) : list Cell :=
  update i (λ c, mkCell (id c) value (output c) (status c) (type c)) cells.

(** [setCells(cells.filter(c => c.id !== cell.id))] *)
Definition onDelete (i : jsstring) (cells : list Cell) : list Cell :=
  filter (λ c, id c ≠ i) cells.

(** [clearOutputs]: the new cells and the text of the success toast. *)
Definition clearOutputs (cells : list Cell) : list Cell * jsstring :=
  (with_result idle None <$> cells, js "Outputs cleared").

(** Whether a cluster id counts as selected: [!clusterId] is true for
    [undefined] and for the empty string. *)
Definition selected (clusterId : option jsstring) : option jsstring :=
  match clusterId with
  | Some cid => if truthy cid then Some cid else None
  | None => None
  end.

Section Single.
Context {World : Type}.
Variable executeCode : jsstring → jsstring → World → Settled * World.
(** [databricksService.restartContext]: whether the promise resolved. *)
Variable restartContext : jsstring → World → bool * World.

(** [executeCell(id)] on the captured [cells]: the arguments of its
    [setCells] calls in order (the last one is the state it leaves; none
    means the state is not touched), the backend state and the events. *)
Definition executeCell (clusterId : option jsstring) (i : jsstring)
    (cells : list Cell) (w : World) : list (list Cell) * World * list Event :=
  match list_find (λ c, id c = i) cells with
  | None => ([], w, [])
  | Some (_, cell) =>
      match type cell with
      | markdown_cell => ([update i (with_status success) cells], w, [])
      | code_cell =>
          match selected clusterId with
          | None => ([], w, [ToastError no_cluster])
          | Some cid =>
              let started := update i (with_result running None) cells in
              match executeCode cid (code cell) w with
              | (Resolved result, w') =>
                  ([started;
                    update i
                      (with_result
                         (if bool_decide (r_status result = js "error")
                          then error else success)
                         (or_else (r_error result) (r_output result))) cells],
                   w', [ExecuteCode cid (code cell)])
              | (Rejected, w') =>
                  ([started;
                    update i
                      (with_result error (Some (js "Failed to execute code"))) cells],
                   w',
                   [ExecuteCode cid (code cell); ToastError (js "Execution failed")])
              end
          end
      end
  end.

(** The state a handler leaves, given the state it started from. *)
Definition final (cells : list Cell) (states : list (list Cell)) : list Cell :=
  default cells (list.last states).

(** [restartKernel]: the cells it leaves, the backend state, the cluster
    ids it asked to restart and the text [toast.promise] ends with. *)
Definition restartKernel (clusterId : option jsstring) (cells : list Cell)
    (w : World) : list Cell * World * list jsstring * option jsstring :=
  match selected clusterId with
  | None => (cells, w, [], None)
  | Some cid =>
      let '(ok, w') := restartContext cid w in
      (with_result idle None <$> cells, w', [cid],
       Some (if ok then js "Kernel Restarted. Memory cleared."
             else js "Failed to restart kernel"))
  end.

End Single.

(** A backend for examples whose every call throws. *)
Definition broken_backend (clusterId code : jsstring) (w : unit)
    : Settled * unit := (Rejected, w).

(** The cells the notebook starts with; [activeQuery] is what
    [getActiveQuery()] returned when the component was mounted. *)
Definition QUOTE : N := 34%N.

Definition sample_code : jsstring :=
  js "import pandas as pd" ++ [LF] ++ js "import numpy as np" ++ [LF] ++ [LF]
    ++ js "# Create sample data" ++ [LF]
    ++ js "df = pd.DataFrame(np.random.randn(10, 4), columns=list("
    ++ [QUOTE] ++ js "ABCD" ++ [QUOTE] ++ js "))" ++ [LF] ++ js "print(df.head())".

Definition initialCells (activeQuery : option AppStore.Query) : list Cell :=
  [mkCell (js "1")
     (js "# Databricks Spark Session initialized" ++ [LF]
        ++ js "# This notebook is connected to your Azure Databricks cluster."
        ++ [LF] ++ [LF] ++ js "print(" ++ [QUOTE] ++ js "Spark Session Active"
        ++ [QUOTE] ++ js ")")
     (Some (js "SparkSession - active")) success code_cell;
   mkCell (js "2")
     (js "## Analysis Overview" ++ [LF]
        ++ js "This notebook demonstrates data analysis using PySpark and Pandas on Databricks.")
     None success markdown_cell;
   mkCell (js "3")
     (match activeQuery with
      | Some q => if truthy (AppStore.code q) then AppStore.code q else sample_code
      | None => sample_code
      end)
     None idle code_cell].

End Notebook.

(** ** The upload zone ([UploadZone]) *)

Module UploadZone.

Record File := mkFile {
  name : jsstring;
  bytes : jsstring
}.

(** How the promise of [fileService.uploadFile] settles; a rejection
    carries [error.message] when the error is an [Error]. *)
Inductive Settled :=
| Uploaded (file_id : jsstring)
| Failed (message : option jsstring).

(** [toLowerCase] on the code units [A-Z].  The sources only compare its
    result with the ASCII words [csv] and [json], and no code unit outside
    [A-Z] lower-cases to a letter of those words. *)
Definition toLowerCase (s : jsstring) : jsstring :=
  (λ c, if (65 <=? c)%N && (c <=? 90)%N then (c + 32)%N else c) <$> s.

(** [file.name.split('.').pop()?.toLowerCase()] *)
Definition extension (f : File) : option jsstring :=
  toLowerCase <$> list.last (split 46%N (name f)).

Definition source_type (f : File) : AppStore.SourceType :=
  if decide (extension f = Some (js "csv")) then AppStore.csv
  else if decide (extension f = Some (js "json")) then AppStore.json
  else AppStore.excel.

Definition failure_text (f : File) (message : option jsstring) : jsstring :=
  js "Failed to upload " ++ name f ++ js ": "
    ++ default (js "Unknown error") message.

Record Zone := mkZone {
  store : AppStore.AppState;
  isUploading : bool;
  uploadError : option jsstring
}.

Section Remote.
(** The outside world: the file backend, [crypto.randomUUID] and the
    clock. *)
Context {World : Type}.
Variable uploadFile : File → World → Settled * World.
Variable randomUUID : World → jsstring * World.
Variable now : World → Z * World.

(** The store's [addDataSource] with its identifier and time stamp drawn
    from the world. *)
Definition addDataSource (source : AppStore.SourceInput)
    (s : AppStore.AppState) (w : World) : AppStore.AppState * World :=
  let '(uuid, w) := randomUUID w in
  let '(t, w) := now w in
  (AppStore.addDataSource uuid t source s, w).

(** The [for (const file of files)] loop of [uploadFilesToBackend]; the
    list in the result is the files handed to [uploadFile], in order. *)
Fixpoint upload_loop (files : list File) (z : Zone) (w : World)
    : Zone * World * list File :=
  match files with
  | [] => (z, w, [])
  | file :: files' =>
      let type := source_type file in
      let '(z', w') :=
        match uploadFile file w with
        | (Uploaded _, w) =>
            let '(s, w) :=
              addDataSource
                (AppStore.mkSourceInput (name file) type AppStore.connected)
                (store z) w in
            (mkZone s (isUploading z) (uploadError z), w)
        | (Failed message, w) =>
            let '(s, w) :=
              addDataSource
                (AppStore.mkSourceInput (name file) type AppStore.error)
                (store z) w in
            (mkZone s (isUploading z) (Some (failure_text file message)), w)
        end in
      let '(z'', w'', calls) := upload_loop files' z' w' in
      (z'', w'', file :: calls)
  end.

Definition uploadFilesToBackend (files : list File) (z : Zone) (w : World)
    : Zone * World * list File :=
  let z := mkZone (store z) true None in
  let '(z, w, calls) := upload_loop files z w in
  (mkZone (store z) false (uploadError z), w, calls).

(** How the uploads of a batch settle, one after the other. *)
Fixpoint settlements (files : list File) (w : World) : list Settled :=
  match files with
  | [] => []
  | file :: files' =>
      let '(r, w) := uploadFile file w in
      let '(_, w) := randomUUID w in
      let '(_, w) := now w in
      r :: settlements files' w
  end.

End Remote.

(** The status of the data source a file leaves in the store, by how its
    upload settled. *)
Definition entry_status (r : Settled) : AppStore.SourceStatus :=
  match r with
  | Uploaded _ => AppStore.connected
  | Failed _ => AppStore.error
  end.

(** A world for examples: a counter that numbers identifiers and time
    stamps, and a backend that refuses files named [bad.json]. *)
Definition sample_upload (f : File) (w : nat) : Settled * nat :=
  if decide (name f = js "bad.json") then (Failed (Some (js "500")), w)
  else (Uploaded (js "file-" ++ name f), w).

Definition sample_uuid (w : nat) : jsstring * nat :=
  (js "id-" ++ [N.of_nat (48 + w)], S w).

Definition sample_now (w : nat) : Z * nat := (Z.of_nat w, S w).

Definition F1 : File := mkFile (js "sales.csv") (js "a,b").
Definition F2 : File := mkFile (js "bad.json") (js "{").
Definition F3 : File := mkFile (js "book.XLSX") (js "PK").

Definition idle_zone : Zone := mkZone AppStore.empty false None.

(** The failure texts of a batch, in order. *)
Definition failure_texts (files : list File) (rs : list Settled) : list jsstring :=
  omap (λ fr, match fr.2 with
              | Failed message => Some (failure_text fr.1 message)
              | Uploaded _ => None
              end) (zip files rs).

End UploadZone.

(** ** The data source menu ([AddDataSourceDropdown]) *)

Module AddDataSourceDropdown.
Import UploadZone.

Section Remote.
Context {World : Type}.
Variable uploadFile : File → World → Settled * World.
Variable randomUUID : World → jsstring * World.
Variable now : World → Z * World.

(** The loop of [handleFileInputChange]. *)
Fixpoint upload_loop (files : list File) (s : AppStore.AppState) (w : World)
    : AppStore.AppState * World * list File :=
  match files with
  | [] => (s, w, [])
  | file :: files' =>
      let type := source_type file in
      let '(s', w') :=
        match uploadFile file w with
        | (Uploaded _, w) =>
            addDataSource randomUUID now
              (AppStore.mkSourceInput (name file) type AppStore.connected) s w
        | (Failed _, w) =>
            addDataSource randomUUID now
              (AppStore.mkSourceInput (name file) type AppStore.error) s w
        end in
      let '(s'', w'', calls) := upload_loop files' s' w' in
      (s'', w'', file :: calls)
  end.

(** [handleFileInputChange]: the store, the [isUploading] flag it ends
    with, the world and the files handed to the backend. *)
Definition handleFileInputChange (files : list File) (s : AppStore.AppState)
    (w : World) : AppStore.AppState * bool * World * list File :=
  let '(s, w, calls) := upload_loop files s w in
  (s, false, w, calls).

End Remote.

End AddDataSourceDropdown.

(** ** The cluster selector ([ClusterSelector]) *)

Module ClusterSelector.

Record Cluster := mkCluster {
  cluster_id : jsstring;
  cluster_name : jsstring;
  state : jsstring;
  driver_type : option jsstring;
  num_workers : option Z
}.


Definition RUNNING : jsstring := js "RUNNING".
Definition TERMINATED : jsstring := js "TERMINATED".
Definition PENDING : jsstring := js "PENDING".

(** [!selectedId] *)
Definition chosen (selectedId : option jsstring) : option jsstring :=
  match selectedId with
  | Some i => if truthy i then Some i else None
  | None => None
  end.

Definition getStatusColor (st : jsstring) : jsstring :=
  if decide (st = RUNNING) then js "bg-green-500"
  else if decide (st = TERMINATED) then js "bg-red-500"
  else if decide (st = PENDING) then js "bg-yellow-500"
  else js "bg-gray-500".




Section Remote.
Context {World : Type}.
(** [listClusters] resolves with the clusters or throws. *)
Variable listClusters : World → option (list Cluster) * World.

(** [loadClusters]: the clusters it leaves, the argument of its [onSelect]
    call if it makes one, the [loading] flag it ends with, and the world. *)
Definition loadClusters (selectedId : option jsstring) (clusters : list Cluster)
    (w : World) : list Cluster * option jsstring * bool * World :=
  match listClusters w with
  | (Some data, w') =>
      (data,
       match chosen selectedId with
       | Some _ => None
       | None =>
           if bool_decide (0 < length data)%nat then
             list_find (λ c, state c = RUNNING) data ≫= (λ p, Some (cluster_id p.2))
           else None
       end, false, w')
  | (None, w') => (clusters, None, false, w')
  end.

End Remote.




End ClusterSelector.

(** ** The chat client ([chatService]) *)

Module ChatService.

Record ChatResponse := mkResponse {
  session_id : jsstring;
  agent : jsstring;
  response : jsstring;
  timestamp : jsstring;
  sources : option (list jsstring)
}.

Record ChatMessage := mkChatMessage {
  cm_role : AppStore.Role;
  cm_content : jsstring;
  cm_agent : option jsstring;
  cm_timestamp : option jsstring;
  cm_sources : option (list jsstring)
}.

(** The answer of [getHistory]. *)
Record History := mkHistory {
  messages : list ChatMessage;
  message_count : Z
}.

(** The body of the [POST /send] request. *)
Record SendRequest := mkRequest {
  rq_message : jsstring;
  rq_agent : jsstring;
  rq_session : option jsstring
}.

Section Remote.
Context {World : Type}.
(** The three calls to the chat backend; [None] and [false] are a call
    that threw. *)
Variable post : SendRequest → World → option ChatResponse * World.
Variable getHistoryOf : jsstring → World → option History * World.
Variable deleteHistoryOf : jsstring → World → bool * World.

(** [sendMessage]; the module variable [currentSessionId] is threaded as
    [session].  The result is the response ([None]: the call threw and the
    error is passed on), the session id kept, the world and the request
    sent. *)
Definition sendMessage (message agent : jsstring) (session : option jsstring)
    (w : World) : option ChatResponse * option jsstring * World * SendRequest :=
  let request := mkRequest message agent session in
  match post request w with
  | (Some data, w') => (Some data, Some (session_id data), w', request)
  | (None, w') => (None, session, w', request)
  end.

(** [getHistory]: the history ([None]: the call threw), the world and the
    session asked for, if the backend was asked at all. *)
Definition getHistory (session : option jsstring) (w : World)
    : option History * World * option jsstring :=
  match session with
  | Some sid =>
      if truthy sid then
        let '(r, w') := getHistoryOf sid w in (r, w', Some sid)
      else (Some (mkHistory [] 0), w, None)
  | None => (Some (mkHistory [] 0), w, None)
  end.

(** [clearHistory]: the session id kept, the world and the session whose
    history the backend was asked to delete, if any. *)
Definition clearHistory (session : option jsstring) (w : World)
    : option jsstring * World * option jsstring :=
  match session with
  | Some sid =>
      if truthy sid then
        let '(ok, w') := deleteHistoryOf sid w in
        (if ok then None else session, w', Some sid)
      else (session, w, None)
  | None => (session, w, None)
  end.

Definition resetSession (session : option jsstring) : option jsstring := None.

(** A run of [sendMessage] calls, one after the other: what each call sent
    and got, the session id kept at the end, and the world. *)
Fixpoint conversation (messages : list (jsstring * jsstring))
    (session : option jsstring) (w : World)
    : list (SendRequest * option ChatResponse) * option jsstring * World :=
  match messages with
  | [] => ([], session, w)
  | (message, agent) :: rest =>
      let '(r, session', w', request) := sendMessage message agent session w in
      let '(log, session'', w'') := conversation rest session' w' in
      ((request, r) :: log, session'', w'')
  end.

End Remote.

End ChatService.

(** * Properties *)

(** ** The store *)

Section StoreFacts.
Import AppStore.
Lemma addQueries_spec calls : ∀ s,
  queries (addQueries calls s).2 = queries s ++ (addQueries calls s).1
  ∧ number <$> (addQueries calls s).1
    = (λ i, Z.of_nat (length (queries s)) + Z.of_nat i) <$> seq 1 (length calls).
Proof.
  induction calls as [|c calls IH]; intros s.
  - simpl. by rewrite app_nil_r.
  - cbn [addQueries length seq].
    set (r := addQuery _ _ _ _ _ s).
    destruct (IH r.2) as [IH1 IH2].
    replace (let '(q, s') := r in let '(qs, s'') := addQueries calls s' in (q :: qs, s''))
      with (r.1 :: (addQueries calls r.2).1, (addQueries calls r.2).2).
    2:{ destruct r as [q s']. simpl. by destruct (addQueries calls s'). }
    cbn [fst snd]. split.
    + rewrite IH1. subst r. cbn. by rewrite <- app_assoc.
    + rewrite fmap_cons, IH2. rewrite (fmap_cons _ 1%nat). f_equal.
      rewrite <- (fmap_S_seq 1), <- list_fmap_compose.
      apply list_fmap_ext. intros _ i _. subst r. cbn.
      rewrite length_app. simpl. lia.
Qed.

(** C6: every [addQuery] call numbers its query one past the current
    count, with empty output and no artifacts, makes it the active query
    and returns it; so N calls on a store that holds no queries hand out
    the numbers 1..N in creation order. *)
Theorem addQuery_numbers_in_order (calls : list AddCall) (s : AppState) :
  queries s = [] →
  (∀ uuid created updated p c s0,
      let r := addQuery uuid created updated p c s0 in
      number r.1 = Z.of_nat (length (queries s0)) + 1
      ∧ output r.1 = [] ∧ artifacts r.1 = []
      ∧ prompt r.1 = p ∧ code r.1 = c
      ∧ queries r.2 = queries s0 ++ [r.1]
      ∧ activeQueryId r.2 = Some (q_id r.1))
  ∧ number <$> (addQueries calls s).1 = Z.of_nat <$> seq 1 (length calls)
  ∧ queries (addQueries calls s).2 = (addQueries calls s).1.
Proof.
  intros Hs. split; [by intros; repeat split|].
  destruct (addQueries_spec calls s) as [H1 H2].
  rewrite Hs in H1, H2. split; [|done].
  rewrite H2. apply list_fmap_ext. intros _ i _. simpl. lia.
Qed.

Lemma addQuery_numbers_witness :
  queries empty = []
  ∧ number <$> (addQueries three_calls empty).1 = [1; 2; 3].
Proof.
  split; [reflexivity|].
  exact (proj1 (proj2 (addQuery_numbers_in_order three_calls empty eq_refl))).
Defined.

(** C7: [removeQuery(id)] deletes the queries whose id is [id]; when [id]
    was the active query [getActiveQuery()] then returns none, and
    otherwise the active identifier is unchanged. *)
Theorem removeQuery_active (id : jsstring) (s : AppState) :
  (activeQueryId s = Some id → getActiveQuery (removeQuery id s) = None)
  ∧ (activeQueryId s ≠ Some id →
     activeQueryId (removeQuery id s) = activeQueryId s)
  ∧ (∀ q, q ∈ queries (removeQuery id s) ↔ q ∈ queries s ∧ q_id q ≠ id)
  ∧ queries (removeQuery id s) = filter (λ q, q_id q ≠ id) (queries s).
Proof.
  split; [|split; [|split]].
  - intros Ha.
    assert (activeQueryId (removeQuery id s) = None) as E
      by (unfold removeQuery; simpl; by rewrite decide_True).
    unfold getActiveQuery. rewrite E.
    destruct (list_find _ _) as [[i q]|] eqn:F; [|done].
    apply list_find_Some in F as (_ & F & _). discriminate F.
  - intros Ha. unfold removeQuery. simpl. by rewrite decide_False.
  - intros q. unfold removeQuery. simpl. rewrite list_elem_of_filter. tauto.
  - reflexivity.
Qed.

Lemma removeQuery_active_witness :
  getActiveQuery (removeQuery (js "q-1") one_query) = None
  ∧ activeQueryId (removeQuery (js "q-2") one_query) = Some (js "q-1").
Proof.
  split.
  - exact (proj1 (removeQuery_active (js "q-1") one_query) eq_refl).
  - refine (proj1 (proj2 (removeQuery_active (js "q-2") one_query)) _).
    intros H. discriminate H.
Defined.

Lemma active_integrity_alt (s : AppState) :
  active_integrity s ↔
  match activeQueryId s with
  | None => True
  | Some i => i ∈ q_id <$> queries s
  end.
Proof.
  unfold active_integrity, no_active, active_held.
  destruct (activeQueryId s) as [i|]; split.
  - intros [[? _]|[_ (q & Hq & E)]]; [done|].
    injection E as ->. by apply list_elem_of_fmap_2.
  - intros (q & -> & Hq)%list_elem_of_fmap. right. split; [done|]. by exists q.
  - done.
  - intros _. left. split; [done|]. by intros (q & _ & ?).
Qed.

(** C2, counterexample: [setActiveQuery] stores an identifier no query
    has, and the store then has an active query that references nothing. *)
Lemma setActiveQuery_dangling :
  active_integrity one_query
  ∧ ¬ active_integrity (step (SetActiveQuery (Some (js "ghost"))) one_query).
Proof.
  rewrite !active_integrity_alt. split.
  - simpl. apply list_elem_of_here.
  - simpl. intros H. apply list_elem_of_singleton in H. discriminate H.
Qed.

(** C2, amended: active-query integrity is kept by [removeQuery(id)] for
    every argument and by every other mutation, provided [setActiveQuery]
    is given none or the id of a held query and [updateQuery] does not
    rewrite the [id] field. *)
Theorem active_integrity_step (mu : Mutation) (s : AppState) :
  active_integrity s → keeps_ids mu s → active_integrity (step mu s).
Proof.
  rewrite !active_integrity_alt. intros Hs Hk.
  destruct mu; simpl in *; try exact Hs.
  - (* addQuery *)
    rewrite fmap_app. apply elem_of_app. right. apply list_elem_of_here.
  - (* updateQuery *)
    destruct (activeQueryId s) as [i|]; [|done].
    apply list_elem_of_fmap in Hs as (q & -> & Hq).
    apply list_elem_of_fmap.
    exists (if decide (q_id q = id) then merge q updates now else q).
    split; [|apply list_elem_of_fmap; by exists q].
    destruct (decide (q_id q = id)) as [E|]; [|done].
    unfold merge. simpl. destruct Hk as [->| ->]; simpl; done.
  - (* removeQuery *)
    destruct (decide (activeQueryId s = Some id)) as [|Hne]; [done|].
    destruct (activeQueryId s) as [i|]; [|done].
    apply list_elem_of_fmap in Hs as (q & -> & Hq).
    apply list_elem_of_fmap. exists q. split; [done|].
    apply list_elem_of_filter. split; [congruence|done].
  - (* setActiveQuery *)
    destruct id as [i|]; [|done].
    destruct Hk as (q & Hq & <-). by apply list_elem_of_fmap_2.
Qed.

Lemma active_integrity_step_witness :
  active_integrity (step (RemoveQuery (js "q-1")) one_query)
  ∧ active_integrity (step (SetActiveQuery (Some (js "q-1"))) one_query).
Proof.
  split.
  - apply (active_integrity_step (RemoveQuery (js "q-1")) one_query).
    + right. split; [discriminate|]. exists sample_query.
      split; [apply list_elem_of_here|reflexivity].
    + exact I.
  - apply (active_integrity_step (SetActiveQuery (Some (js "q-1"))) one_query).
    + right. split; [discriminate|]. exists sample_query.
      split; [apply list_elem_of_here|reflexivity].
    + exists sample_query. split; [apply list_elem_of_here|reflexivity].
Defined.

End StoreFacts.

(** ** The notebook *)

Section NotebookFacts.
Import Notebook.

Lemma update_absent i f (l : list Cell) :
  i ∉ (id <$> l) → update i f l = l.
Proof.
  induction l as [|c l IH]; [done|]. intros Hi.
  apply not_elem_of_cons in Hi as [Hc Hl]. unfold update in *.
  rewrite fmap_cons, IH by done. by rewrite decide_False.
Qed.

Lemma update_focus i f (d r : list Cell) (c : Cell) :
  id c = i → i ∉ (id <$> d) → i ∉ (id <$> r) →
  update i f (d ++ c :: r) = d ++ f c :: r.
Proof.
  intros Hc Hd Hr. unfold update.
  rewrite fmap_app, fmap_cons, decide_True by done.
  fold (update i f d). fold (update i f r).
  by rewrite !update_absent.
Qed.

Lemma reset_ids (l : list Cell) : id <$> (reset <$> l) = id <$> l.
Proof. rewrite <- list_fmap_compose. by apply list_fmap_ext. Qed.

Lemma ids_focus (d r : list Cell) (c : Cell) :
  NoDup (id <$> (d ++ c :: r)) → (id c ∉ id <$> d) ∧ (id c ∉ id <$> r).
Proof.
  rewrite fmap_app, fmap_cons. intros H.
  apply list.NoDup_app in H as (_ & Hd & Hr).
  apply list.NoDup_cons in Hr as [Hr _]. split; [|done].
  intros Hin. apply (Hd _ Hin). apply list_elem_of_here.
Qed.

Section Remote.
Context {World : Type}.
Variable executeCode : jsstring → jsstring → World → Settled * World.

Lemma runAll_loop_stops clusterId (a : Cell) (post : list Cell) (w1 : World) :
  ∀ (pre done : list Cell) (w : World),
    NoDup (id <$> (done ++ pre ++ a :: post)) →
    runs_clean executeCode clusterId pre w = Some w1 →
    fails executeCode clusterId a w1 = true →
    ∃ done' a' evs,
      runAll_loop executeCode clusterId (pre ++ a :: post)
        (done ++ (reset <$> (pre ++ a :: post))) w
      = (done ++ done' ++ a' :: (reset <$> post),
         (executeCode clusterId (code a) w1).2, evs)
      ∧ length done' = length pre
      ∧ id a' = id a ∧ status a' = error
      ∧ executed evs = code <$> List.filter is_code (pre ++ [a]).
Proof.
  induction pre as [|c pre IH]; intros done w Hnd Hclean Hfail.
  - simpl in Hclean. injection Hclean as ->.
    destruct (ids_focus _ _ _ Hnd) as [Hd Hp].
    unfold fails in Hfail. cbn [app runAll_loop]. rewrite fmap_cons.
    rewrite (update_focus (id a) _ done (reset <$> post) (reset a))
      by (by rewrite ?reset_ids).
    destruct (type a) eqn:Ht; [|done].
    destruct (executeCode clusterId (code a) w1) as [[r|] w2] eqn:E.
    + rewrite Hfail.
      rewrite (update_focus (id a) _ done (reset <$> post))
        by (by rewrite ?reset_ids).
      eexists [], _, _. split; [reflexivity|].
      repeat split. simpl. unfold is_code. by rewrite Ht.
    + rewrite (update_focus (id a) _ done (reset <$> post))
        by (by rewrite ?reset_ids).
      eexists [], _, _. split; [reflexivity|].
      repeat split. simpl. unfold is_code. by rewrite Ht.
  - destruct (ids_focus _ _ _ Hnd) as [Hd Hp].
    cbn [app runAll_loop]. rewrite fmap_cons.
    rewrite (update_focus (id c) _ done _ (reset c))
      by (by rewrite ?reset_ids).
    simpl in Hclean.
    assert (∀ c', id c' = id c →
              NoDup (id <$> ((done ++ [c']) ++ pre ++ a :: post))) as Hnd'.
    { intros c' Hc'. rewrite <- app_assoc. simpl.
      rewrite fmap_app, fmap_cons, Hc', <- fmap_cons, <- fmap_app. done. }
    destruct (type c) eqn:Ht.
    + destruct (executeCode clusterId (code c) w) as [[r|] w2] eqn:E; [|done].
      destruct (bool_decide (r_status r = js "error")) eqn:Hr; [done|].
      rewrite (update_focus (id c) _ done _) by (by rewrite ?reset_ids).
      set (c' := with_result success _ _).
      destruct (IH (done ++ [c']) w2 (Hnd' c' eq_refl) Hclean Hfail)
        as (done' & a' & evs & Hrun & Hlen & Hid & Hst & Hev).
      rewrite <- app_assoc in Hrun. simpl in Hrun. rewrite Hrun.
      exists (c' :: done'), a', (ExecuteCode clusterId (code c) :: evs).
      split; [by rewrite <- app_assoc|].
      split; [simpl; by rewrite Hlen|]. split; [done|]. split; [done|].
      simpl. unfold is_code at 1. rewrite Ht. simpl in *. by rewrite Hev.
    + rewrite (update_focus (id c) _ done _) by (by rewrite ?reset_ids).
      set (c' := with_status success _).
      destruct (IH (done ++ [c']) w (Hnd' c' eq_refl) Hclean Hfail)
        as (done' & a' & evs & Hrun & Hlen & Hid & Hst & Hev).
      rewrite <- app_assoc in Hrun. simpl in Hrun. rewrite Hrun.
      exists (c' :: done'), a', evs.
      split; [by rewrite <- app_assoc|].
      split; [simpl; by rewrite Hlen|]. split; [done|]. split; [done|].
      simpl. unfold is_code at 1. by rewrite Ht.
Qed.

(** C1, amended: with a cluster selected and cell ids pairwise distinct,
    [runAll] stops at the first code cell that resolves to error; that
    cell ends with status error, every later cell is left as the
    initial reset put it (status running if it was running, idle
    otherwise, all other fields untouched), and no later cell is sent
    to the backend. *)
Theorem runAll_fail_fast (clusterId : jsstring) (pre post : list Cell)
    (a : Cell) (w w1 : World) :
  truthy clusterId = true →
  NoDup (id <$> (pre ++ a :: post)) →
  runs_clean executeCode clusterId pre w = Some w1 →
  fails executeCode clusterId a w1 = true →
  ∃ done a' evs,
    runAll executeCode (Some clusterId) (pre ++ a :: post) w
    = (done ++ a' :: (reset <$> post),
       (executeCode clusterId (code a) w1).2, evs)
    ∧ length done = length pre
    ∧ id a' = id a ∧ status a' = error
    ∧ executed evs = code <$> List.filter is_code (pre ++ [a]).
Proof.
  intros Hc Hnd Hclean Hfail. unfold runAll. rewrite Hc.
  destruct (runAll_loop_stops clusterId a post w1 pre [] w Hnd Hclean Hfail)
    as (done & a' & evs & Hrun & H).
  exists done, a', evs. split; [exact Hrun|exact H].
Qed.
End Remote.

Lemma runAll_fail_fast_witness :
  ∃ done a' evs,
    runAll sample_backend (Some (js "cluster-1")) ([] ++ cellA :: [cellB; cellC]) tt
    = (done ++ a' :: (reset <$> [cellB; cellC]),
       (sample_backend (js "cluster-1") (code cellA) tt).2, evs)
    ∧ length done = length (@nil Cell)
    ∧ id a' = id cellA ∧ status a' = error
    ∧ executed evs = code <$> List.filter is_code ([] ++ [cellA]).
Proof.
  apply (runAll_fail_fast sample_backend (js "cluster-1") [] [cellB; cellC]
           cellA tt tt).
  - reflexivity.
  - apply (bool_decide_unpack _). vm_compute. exact I.
  - reflexivity.
  - reflexivity.
Defined.

(** C1, counterexample: cell A fails and cell B, which had status success
    before the run, is not executed but does not keep its status: the
    reset at the start of [runAll] has made it idle. *)
Lemma runAll_resets_later_status :
  let after := (runAll sample_backend (Some (js "cluster-1")) [cellA; cellB] tt).1.1 in
  let evs := (runAll sample_backend (Some (js "cluster-1")) [cellA; cellB] tt).2 in
  status <$> after !! 0%nat = Some error
  ∧ executed evs = [code cellA]
  ∧ status <$> after !! 1%nat = Some idle
  ∧ status <$> after !! 1%nat ≠ Some (status cellB).
Proof. vm_compute. repeat split; discriminate. Qed.

Lemma adjacent (l : list Cell) (k : nat) (x y : Cell) :
  l !! k = Some x → l !! S k = Some y →
  ∃ l1 l2, l = l1 ++ x :: y :: l2 ∧ length l1 = k.
Proof.
  intros Hx Hy. exists (take k l), (drop (S (S k)) l). split.
  - rewrite <- (drop_S l y (S k)), <- (drop_S l x k) by done.
    by rewrite take_drop.
  - apply length_take_le. apply lookup_lt_Some in Hx. lia.
Qed.

Lemma swap_adjacent (l1 l2 : list Cell) (x y : Cell) :
  swap (l1 ++ x :: y :: l2) (length l1) (S (length l1)) = l1 ++ y :: x :: l2
  ∧ swap (l1 ++ x :: y :: l2) (S (length l1)) (length l1) = l1 ++ y :: x :: l2.
Proof.
  assert ((l1 ++ x :: y :: l2) !! length l1 = Some x) as Hx
    by (by rewrite list_lookup_middle).
  assert ((l1 ++ x :: y :: l2) !! S (length l1) = Some y) as Hy.
  { rewrite lookup_app_r by lia. by replace (S (length l1) - length l1)%nat with 1%nat by lia. }
  unfold swap. rewrite Hx, Hy. split.
  - rewrite (insert_app_r_alt _ _ (length l1)) by lia.
    rewrite Nat.sub_diag. simpl.
    rewrite (insert_app_r_alt _ _ (S (length l1))) by lia.
    by replace (S (length l1) - length l1)%nat with 1%nat by lia.
  - rewrite (insert_app_r_alt _ _ (S (length l1))) by lia.
    replace (S (length l1) - length l1)%nat with 1%nat by lia. simpl.
    rewrite (insert_app_r_alt _ _ (length l1)) by lia.
    by rewrite Nat.sub_diag.
Qed.

Lemma swap_next_perm (l : list Cell) (k : nat) :
  swap l k (S k) ≡ₚ l ∧ swap l (S k) k ≡ₚ l.
Proof.
  destruct (l !! k) as [x|] eqn:Hx; [destruct (l !! S k) as [y|] eqn:Hy|].
  - destruct (adjacent l k x y Hx Hy) as (l1 & l2 & -> & <-).
    destruct (swap_adjacent l1 l2 x y) as [-> ->].
    split; apply Permutation_app_head, perm_swap.
  - unfold swap. by rewrite Hx, Hy.
  - unfold swap. rewrite Hx. by destruct (l !! S k).
Qed.

Lemma onMoveUp_perm (cells : list Cell) (index : nat) :
  onMoveUp cells index ≡ₚ cells.
Proof.
  unfold onMoveUp. destruct index as [|k]; [done|]. simpl.
  rewrite Nat.sub_0_r. apply swap_next_perm.
Qed.

Lemma onMoveDown_perm (cells : list Cell) (index : nat) :
  onMoveDown cells index ≡ₚ cells.
Proof.
  unfold onMoveDown. destruct (_ =? _); [done|].
  replace (index + 1)%nat with (S index) by lia. apply swap_next_perm.
Qed.

(** C10: for a cell that is not first, [moveUp] puts it one place
    earlier and [moveDown] on it then restores the original order; both
    handlers only permute the list, so every cell keeps its id, code,
    type, status and output. *)
Theorem moveUp_then_moveDown (cells : list Cell) (index : nat) :
  (0 < index < length cells)%nat →
  onMoveUp cells index !! (index - 1)%nat = cells !! index
  ∧ onMoveDown (onMoveUp cells index) (index - 1) = cells
  ∧ (∀ i, onMoveUp cells i ≡ₚ cells)
  ∧ (∀ i, onMoveDown cells i ≡ₚ cells).
Proof.
  intros [Hpos Hlt].
  split; [|split; [|split; [apply onMoveUp_perm|apply onMoveDown_perm]]].
  all: destruct index as [|k]; [lia|]; simpl; rewrite Nat.sub_0_r.
  all: destruct (lookup_lt_is_Some_2 cells (S k) Hlt) as [y Hy].
  all: destruct (lookup_lt_is_Some_2 cells k ltac:(lia)) as [x Hx].
  all: destruct (adjacent cells k x y Hx Hy) as (l1 & l2 & -> & <-).
  all: unfold onMoveUp; simpl; rewrite Nat.sub_0_r.
  all: rewrite (proj2 (swap_adjacent l1 l2 x y)).
  - rewrite list_lookup_middle by done.
    rewrite lookup_app_r by lia.
    by replace (S (length l1) - length l1)%nat with 1%nat by lia.
  - unfold onMoveDown.
    destruct (Z.eqb_spec (Z.of_nat (length l1))
                (Z.of_nat (length (l1 ++ y :: x :: l2)) - 1)) as [E|_].
    + rewrite length_app in E. simpl in E. lia.
    + replace (length l1 + 1)%nat with (S (length l1)) by lia.
      by rewrite (proj1 (swap_adjacent l1 l2 y x)).
Qed.

Lemma moveUp_then_moveDown_witness :
  onMoveDown (onMoveUp [cellA; cellB; cellC] 2) (2 - 1) = [cellA; cellB; cellC].
Proof.
  refine (proj1 (proj2 (moveUp_then_moveDown [cellA; cellB; cellC] 2 _))).
  simpl. lia.
Defined.

End NotebookFacts.

(** ** The matcher *)

Section RegexFacts.
Import Regex.

Lemma startsWith_prefix (p : jsstring) : ∀ s,
  startsWith p s = true → ∃ b, s = p ++ b.
Proof.
  induction p as [|a p IH]; intros s H; [by exists s|].
  destruct s as [|c s]; [done|]. simpl in H.
  apply andb_true_iff in H as [E H]. apply N.eqb_eq in E as ->.
  destruct (IH s H) as [b ->]. by exists b.
Qed.

Lemma includes_infix (p s : jsstring) :
  includes p s = true → ∃ a b, s = a ++ p ++ b.
Proof.
  induction s as [|c s IH]; simpl; intros H.
  - rewrite orb_false_r in H. destruct (startsWith_prefix p [] H) as [b E].
    by exists [], b.
  - apply orb_true_iff in H as [H|H].
    + destruct (startsWith_prefix p (c :: s) H) as [b E]. by exists [], b.
    + destruct (IH H) as (a & b & ->). by exists (c :: a), b.
Qed.

Lemma startsWith_app (p b : jsstring) : startsWith p (p ++ b) = true.
Proof. induction p as [|a p IH]; simpl; [done|]. by rewrite N.eqb_refl, IH. Qed.

Lemma includes_app (p a b : jsstring) : includes p (a ++ p ++ b) = true.
Proof.
  induction a as [|c a IH].
  - simpl. destruct (p ++ b) eqn:E; simpl; rewrite <- E, startsWith_app; done.
  - simpl. rewrite IH. apply orb_true_r.
Qed.

Lemma lit_match_prefix ci (l : jsstring) : ∀ s s',
  lit_match ci l s = Some s' →
  ∃ w, s = w ++ s' ∧ canonicalize ci <$> w = canonicalize ci <$> l.
Proof.
  induction l as [|a l IH]; intros s s' H.
  - destruct s; injection H as <-; by exists [].
  - destruct s as [|c s]; [done|]. simpl in H.
    destruct (N.eqb_spec (canonicalize ci a) (canonicalize ci c)) as [E|]; [|done].
    destruct (IH s s' H) as (w & -> & Hw). exists (c :: w).
    split; [done|]. by rewrite !fmap_cons, Hw, E.
Qed.

Lemma star_loop_sound (g : bool) (R : relation (nat * jsstring))
    (body : mstate → (mstate → option mstate) → option mstate)
    (k : mstate → option mstate) :
  (∀ st k' res, body st k' = Some res →
     ∃ st', R (at_state st) (at_state st') ∧ k' st' = Some res) →
  ∀ n st res, star_loop g body k n st = Some res →
    ∃ st', rtc R (at_state st) (at_state st') ∧ k st' = Some res.
Proof.
  intros Hbody. induction n as [|n IH]; intros st res H.
  - by exists st.
  - simpl in H.
    assert (∀ x, body st
              (λ st', if (pos st' =? pos st)%nat then None
                      else star_loop g body k n st') = Some x →
            ∃ st', rtc R (at_state st) (at_state st') ∧ k st' = Some x) as Hit.
    { intros x Hx. apply Hbody in Hx as (st1 & HR & Hx).
      destruct (pos st1 =? pos st)%nat; [done|].
      apply IH in Hx as (st' & Hrtc & Hk). exists st'.
      split; [by eapply rtc_l|done]. }
    destruct g.
    + destruct (body st _) as [x|] eqn:E.
      * injection H as ->. by apply Hit.
      * by exists st.
    + destruct (k st) as [x|] eqn:E.
      * injection H as ->. by exists st.
      * by apply Hit.
Qed.

(** Whatever the matcher accepts lies in the denotation of the pattern. *)
Lemma m_sound ci (r : regex) : ∀ st k res,
  m ci r st k = Some res →
  ∃ st', den ci r (at_state st) (at_state st') ∧ k st' = Some res.
Proof.
  induction r as [l|p| | | |r1 IH1 r2 IH2|r1 IH1 r2 IH2|g r1 IH1|r1 IH1];
    intros st k res H; simpl in H.
  - destruct (lit_match ci l (rest st)) as [s'|] eqn:E; [|done].
    eexists (mkM _ _ _). split; [|exact H]. by split.
  - destruct (rest st) as [|c s'] eqn:E; [done|].
    destruct (p c) eqn:Hp; [|done].
    eexists (mkM _ _ _). split; [|exact H]. exists c. simpl. by rewrite E.
  - destruct (Nat.eqb_spec (pos st) 0) as [E|]; [|done]. by exists st.
  - destruct (rest st) eqn:E; [|done]. by exists st.
  - by exists st.
  - apply IH1 in H as (st1 & D1 & H). apply IH2 in H as (st2 & D2 & H).
    exists st2. split; [by exists (at_state st1)|done].
  - destruct (m ci r1 st k) as [x|] eqn:E.
    + injection H as ->. apply IH1 in E as (st' & D & E).
      exists st'. split; [by left|done].
    + apply IH2 in H as (st' & D & H). exists st'. split; [by right|done].
  - by apply (star_loop_sound g (den ci r1) (m ci r1) k IH1) in H.
  - apply IH1 in H as (st' & D & H). eexists (mkM _ _ _). split; [|exact H].
    exact D.
Qed.

(** A match found by [exec] starts at an index of the text and lies in the
    denotation of the pattern there. *)
Lemma exec_from_sound ci (r : regex) (s : jsstring) : ∀ p i st,
  exec_from ci r p s = Some (i, st) →
  ∃ a b, s = a ++ b ∧ i = (p + length a)%nat
         ∧ den ci r (i, b) (at_state st).
Proof.
  induction s as [|c s IH]; intros p i st H; simpl in H.
  - destruct (m ci r _ Some) as [x|] eqn:E; [|done]. injection H as <- <-.
    apply m_sound in E as (st' & D & [= <-]).
    exists [], []. simpl. by rewrite Nat.add_0_r.
  - destruct (m ci r _ Some) as [x|] eqn:E.
    + injection H as <- <-. apply m_sound in E as (st' & D & [= <-]).
      exists [], (c :: s). simpl. by rewrite Nat.add_0_r.
    + apply IH in H as (a & b & -> & -> & D). exists (c :: a), b.
      split; [done|]. split; [simpl; lia|done].
Qed.


(** *** The iteration bound of the starred loop is enough

    In a state of a match on a text of [L] code units the position and
    what is left of the text add up to [L]. *)
Definition wf (L : nat) (st : mstate) : Prop :=
  (pos st + length (rest st))%nat = L.

Lemma lit_match_length ci (l : jsstring) : ∀ s s',
  lit_match ci l s = Some s' → length s = (length l + length s')%nat.
Proof.
  induction l as [|a l IH]; intros s s' H.
  - destruct s; by injection H as <-.
  - destruct s as [|c s]; [done|]. simpl in H.
    destruct (_ =? _)%N; [|done]. simpl. by rewrite (IH s s' H).
Qed.

Lemma star_loop_ext (g : bool) (L : nat)
    (body : mstate → (mstate → option mstate) → option mstate) :
  (∀ st k k', wf L st →
     (∀ st', wf L st' → (pos st ≤ pos st')%nat → k st' = k' st') →
     body st k = body st k') →
  ∀ n st k k', wf L st →
    (∀ st', wf L st' → (pos st ≤ pos st')%nat → k st' = k' st') →
    star_loop g body k n st = star_loop g body k' n st.
Proof.
  intros Hbody. induction n as [|n IH]; intros st k k' Hwf Hk; simpl.
  - apply Hk; [done|lia].
  - rewrite (Hk st Hwf (Nat.le_refl _)).
    rewrite (Hbody st _
               (λ st', if (pos st' =? pos st)%nat then None
                       else star_loop g body k' n st') Hwf); [done|].
    intros st' Hwf' Hle. destruct (pos st' =? pos st)%nat; [done|].
    apply IH; [done|]. intros st'' Hwf'' Hle'. apply Hk; [done|lia].
Qed.

(** The matcher only consults its continuation at states of the same text
    that are not behind the current one. *)
Lemma m_ext ci (L : nat) (r : regex) : ∀ st k k',
  wf L st →
  (∀ st', wf L st' → (pos st ≤ pos st')%nat → k st' = k' st') →
  m ci r st k = m ci r st k'.
Proof.
  induction r as [l|p| | | |r1 IH1 r2 IH2|r1 IH1 r2 IH2|g r1 IH1|r1 IH1];
    intros st k k' Hwf Hk; simpl.
  - destruct (lit_match ci l (rest st)) as [s'|] eqn:E; [|done].
    apply lit_match_length in E. apply Hk; unfold wf in *; simpl; lia.
  - destruct (rest st) as [|c s'] eqn:E; [done|]. destruct (p c); [|done].
    apply Hk; unfold wf in *; rewrite ?E in *; simpl in *; lia.
  - destruct (pos st =? 0)%nat; [|done]. by apply Hk.
  - destruct (rest st); [|done]. by apply Hk.
  - by apply Hk.
  - apply IH1; [done|]. intros st1 Hwf1 Hle1. apply IH2; [done|].
    intros st2 Hwf2 Hle2. apply Hk; [done|lia].
  - by rewrite (IH1 st k k'), (IH2 st k k').
  - by apply (star_loop_ext g L (m ci r1) IH1).
  - apply IH1; [done|]. intros st' Hwf' Hle. by apply Hk.
Qed.

Lemma m_no_continuation ci (r : regex) (st : mstate) :
  m ci r st (λ _, None) = None.
Proof.
  destruct (m ci r st (λ _, None)) as [x|] eqn:E; [|done].
  by apply m_sound in E as (st' & _ & ?).
Qed.

(** With every code unit left allowed one iteration, more iterations
    change nothing: the bound [length (rest st)] of [Star] loses no match. *)
Lemma star_loop_fuel ci (g : bool) (r : regex) (L : nat)
    (k : mstate → option mstate) : ∀ n n' st,
  wf L st → (length (rest st) ≤ n)%nat → (length (rest st) ≤ n')%nat →
  star_loop g (m ci r) k n st = star_loop g (m ci r) k n' st.
Proof.
  assert (∀ n st, wf L st → rest st = [] →
            star_loop g (m ci r) k n st = k st) as Hend.
  { intros [|n] st Hwf Hnil; [done|]. simpl.
    rewrite (m_ext ci L r st _ (λ _, None) Hwf).
    - rewrite m_no_continuation. by destruct g, (k st).
    - intros st' Hwf' Hle. destruct (Nat.eqb_spec (pos st') (pos st)); [done|].
      unfold wf in *. rewrite Hnil in Hwf. simpl in Hwf. lia. }
  induction n as [|n IH]; intros n' st Hwf Hn Hn'.
  - rewrite (Hend n' st Hwf); [done|]. destruct (rest st); [done|simpl in Hn; lia].
  - destruct n' as [|n'].
    { rewrite (Hend (S n) st Hwf); [done|].
      destruct (rest st); [done|simpl in Hn'; lia]. }
    simpl.
    rewrite (m_ext ci L r st _
               (λ st', if (pos st' =? pos st)%nat then None
                       else star_loop g (m ci r) k n' st') Hwf); [done|].
    intros st' Hwf' Hle. destruct (Nat.eqb_spec (pos st') (pos st)); [done|].
    apply IH; [done| |]; unfold wf in *; lia.
Qed.

End RegexFacts.

(** ** The chat response parser *)

Section ParserFacts.
Import Regex AIAssistant.

(** Under the [i] flag a code unit that is neither a line feed nor a colon
    does not match one. *)
Lemma canonicalize_same (c d : N) :
  (d < 65)%N → canonicalize true c = canonicalize true d → c = d.
Proof.
  intros Hd. unfold canonicalize. simpl.
  destruct (N.leb_spec 97 c), (N.leb_spec c 122),
           (N.leb_spec 97 d), (N.leb_spec d 122); simpl; lia.
Qed.

Lemma same_letters_one (w : jsstring) (d : N) :
  (d < 65)%N → canonicalize true <$> w = canonicalize true <$> [d] → w = [d].
Proof.
  intros Hd H. destruct w as [|c [|? ?]]; try done.
  injection H as H. by rewrite (canonicalize_same c d Hd H).
Qed.

(** Where the suggestion pattern matches, the text has a section marker. *)
Lemma suggestion_re_marker (a b : jsstring) (y : nat * jsstring) :
  den true suggestion_re (length a, b) y → has_marker (a ++ b).
Proof.
  intros (z1 & Hstart & z2 & Hword & z3 & [Hcolon _] & _).
  apply lit_match_prefix in Hcolon as (wc & Ec & Hwc).
  apply (same_letters_one wc 58%N) in Hwc; [subst wc|done].
  assert (∃ word, z1.2 = word ++ js ":" ++ z3.2
                  ∧ (same_letters word (js "Suggestions")
                     ∨ same_letters word (js "Suggested Next Steps")))
    as (word & Eword & Hletters).
  { destruct Hword as [[Hw _]|[Hw _]];
      apply lit_match_prefix in Hw as (word & E & Hw);
      exists word; rewrite E, Ec; (split; [done|]); [by left|by right]. }
  destruct Hstart as [[Hzero ->]|[Hlf _]].
  - cbn [fst snd] in *. destruct a; [|done].
    exists [], word, z3.2. rewrite Eword. repeat split; by auto.
  - apply lit_match_prefix in Hlf as (wl & El & Hwl).
    apply (same_letters_one wl 10%N) in Hwl; [subst wl|done].
    cbn [fst snd] in El.
    exists (a ++ [LF]), word, z3.2. rewrite El, Eword, <- app_assoc.
    split; [reflexivity|]. split; [right; by exists a|done].
Qed.

Lemma exec_suggestion_marker (s : jsstring) (i : nat) (st : mstate) :
  exec true suggestion_re s = Some (i, st) → has_marker s.
Proof.
  intros H. apply exec_from_sound in H as (a & b & -> & -> & D).
  by apply suggestion_re_marker in D.
Qed.

(** C3: the reply of the parser example is split into the prose before
    the code block, the code inside it and the two suggestions. *)
Theorem parse_example_reply :
  parseResponse example_reply
  = mkParsed (js "Here is code:") (Some (js "print(1)"))
      (Some [js "try X"; js "try Y"]).
Proof. vm_compute. reflexivity. Qed.

(** C4, counterexample: a reply without fence and without section marker
    keeps its surrounding blanks; it is not trimmed. *)
Lemma parse_plain_not_trimmed :
  includes fence (js " hi ") = false
  ∧ exec true suggestion_re (js " hi ") = None
  ∧ p_content (parseResponse (js " hi ")) = js " hi "
  ∧ p_content (parseResponse (js " hi ")) ≠ trim (js " hi ").
Proof. vm_compute. repeat split; discriminate. Qed.

(** C4, amended: for a reply with no fence and no section marker the
    parser returns the reply itself as content, unchanged (so equal to the
    trimmed reply exactly when the reply has no blanks around it), with no
    code and no suggestions. *)
Theorem parse_plain_unchanged (text : jsstring) :
  ¬ has_fence text → ¬ has_marker text →
  parseResponse text = mkParsed text None None
  ∧ (p_content (parseResponse text) = trim text ↔ trim text = text).
Proof.
  intros Hf Hm.
  assert (parseResponse text = mkParsed text None None) as E.
  { unfold parseResponse, extract_code.
    destruct (includes fence text) eqn:Hi.
    { destruct Hf. by apply includes_infix. }
    destruct (exec true suggestion_re text) as [[i st]|] eqn:Hx; [|done].
    destruct Hm. by apply exec_suggestion_marker in Hx. }
  split; [exact E|]. rewrite E. simpl. split; congruence.
Qed.

Lemma plain_text_clean :
  ¬ has_fence (js "All good.") ∧ ¬ has_marker (js "All good.").
Proof.
  split.
  - intros (a & b & E).
    assert (includes fence (js "All good.") = true) as H; [|discriminate H].
    rewrite E. apply includes_app.
  - intros (before & word & after & E & _ & _).
    assert (58%N ∉ js "All good.") as Hn
      by (apply (bool_decide_unpack _); vm_compute; exact I).
    apply Hn. rewrite E. apply elem_of_app. right. apply elem_of_app. right.
    apply list_elem_of_here.
Defined.

Lemma parse_plain_unchanged_witness :
  parseResponse (js "All good.") = mkParsed (js "All good.") None None.
Proof.
  exact (proj1 (parse_plain_unchanged (js "All good.")
                  (proj1 plain_text_clean) (proj2 plain_text_clean))).
Defined.

(** C5, the failing reply: a suggestion line that starts with the bullet
    character U+2022 is not collected, while the same line with a hyphen
    is; the section is cut from the content in both cases. *)
Theorem parse_bulleted_reply :
  parseResponse bulleted_reply = mkParsed [] None None
  ∧ parseResponse hyphen_reply = mkParsed [] None (Some [js "try X"])
  ∧ startsWith [bullet] ([bullet] ++ js " try X") = true
  ∧ startsWith bullet_literal ([bullet] ++ js " try X") = false.
Proof. vm_compute. done. Qed.

End ParserFacts.

(** ** The upload zone *)

Section UploadFacts.
Import AppStore UploadZone.

Section Remote.
Context {World : Type}.
Variable uploadFile : File → World → Settled * World.
Variable randomUUID : World → jsstring * World.
Variable now : World → Z * World.

Lemma upload_loop_spec (files : list File) : ∀ (z : Zone) (w : World),
  (upload_loop uploadFile randomUUID now files z w).2 = files
  ∧ isUploading (upload_loop uploadFile randomUUID now files z w).1.1
    = isUploading z
  ∧ ∃ entries,
      dataSources (store (upload_loop uploadFile randomUUID now files z w).1.1)
      = dataSources (store z) ++ entries
      ∧ ds_name <$> entries = name <$> files
      ∧ ds_type <$> entries = source_type <$> files
      ∧ ds_status <$> entries
        = entry_status <$> settlements uploadFile randomUUID now files w.
Proof.
  induction files as [|f files IH]; intros z w.
  - simpl. repeat split. exists []. by rewrite app_nil_r.
  - cbn [upload_loop settlements]. unfold UploadZone.addDataSource.
    destruct (uploadFile f w) as [[fid|msg] w1].
    all: destruct (randomUUID w1) as [uuid w2].
    all: destruct (now w2) as [t w3].
    all: match goal with
         | |- context [upload_loop _ _ _ ?fs ?z' ?w'] =>
             destruct (IH z' w') as (Hc & Hu & entries & Hd & Hn & Ht & Hs);
             destruct (upload_loop uploadFile randomUUID now fs z' w')
               as [[z'' w''] calls]
         end.
    all: cbn [fst snd] in *; subst calls.
    all: split; [done|]; split; [done|].
    all: eexists (_ :: entries).
    all: split; [rewrite Hd; cbn; rewrite <- app_assoc; reflexivity|].
    all: by rewrite !fmap_cons, Hn, Ht, Hs.
Qed.

(** C8: a batch is uploaded file by file in the order given, and a
    failed upload does not end it: every file is handed to the backend
    and every file leaves one data source, marked connected when its
    upload succeeded and error when it failed. *)
Theorem upload_batch_continues (files : list File) (z : Zone) (w : World) :
  (uploadFilesToBackend uploadFile randomUUID now files z w).2 = files
  ∧ isUploading (uploadFilesToBackend uploadFile randomUUID now files z w).1.1
    = false
  ∧ ∃ entries,
      dataSources
        (store (uploadFilesToBackend uploadFile randomUUID now files z w).1.1)
      = dataSources (store z) ++ entries
      ∧ ds_name <$> entries = name <$> files
      ∧ ds_type <$> entries = source_type <$> files
      ∧ ds_status <$> entries
        = entry_status <$> settlements uploadFile randomUUID now files w.
Proof.
  unfold uploadFilesToBackend.
  destruct (upload_loop_spec files (mkZone (store z) true None) w)
    as (Hc & _ & H).
  destruct (upload_loop _ _ _ files _ w) as [[z' w'] calls].
  simpl in *. split; [done|]. split; [done|]. exact H.
Qed.
End Remote.

(** The three-file batch of the behavioural description: the second
    upload fails, all three are attempted and all three leave an entry. *)
Lemma upload_three_files :
  let r := uploadFilesToBackend sample_upload sample_uuid sample_now
             [F1; F2; F3] idle_zone 0%nat in
  r.2 = [F1; F2; F3]
  ∧ ds_name <$> dataSources (store r.1.1) = [name F1; name F2; name F3]
  ∧ ds_status <$> dataSources (store r.1.1) = [connected; error; connected]
  ∧ ds_type <$> dataSources (store r.1.1) = [csv; json; excel].
Proof. vm_compute. done. Qed.

End UploadFacts.

(** ** The scroll behaviour of the assistant panel *)

Section ScrollFacts.
Import AppStore AIAssistant.

(** C9, counterexample: the transcript is 1500 pixels above its bottom
    and the user sends a message; the message is appended and the
    transcript is scrolled to the bottom all the same. *)
Lemma send_scrolls_from_afar :
  let p := handleSend_begin (js "m-1") 0 (Some (js "hi")) 40 far_panel in
  250 < scrollHeight far_panel - Qceiling (scrollTop far_panel)
        - clientHeight far_panel
  ∧ shouldAutoScroll far_panel = false
  ∧ length (aiMessages (store p)) = S (length (aiMessages (store far_panel)))
  ∧ ¬ (scrollTop p == scrollTop far_panel)%Q.
Proof.
  vm_compute. repeat split; done.
Qed.

(** C9, amended: once the scroll listener has seen the current offset of
    an expanded panel, a message that reaches the transcript from the
    store, such as the assistant's reply, leaves the offset alone when
    the distance to the bottom is 250 pixels or more, and scrolls the
    transcript to its bottom when the distance is less.  A send from the
    panel is different: a blank one does nothing, and any other appends
    the user's message, switches auto-scroll on and scrolls the
    transcript to its bottom whatever the distance was.  While the panel
    is collapsed no message scrolls or lays out anything. *)
Theorem append_scrolls_only_near_bottom (p : Panel) (uuid : jsstring) (now : Z)
    (r : Role) (content : jsstring) (code : option jsstring)
    (suggestions : option (list jsstring)) (height : Z) :
  let distance := scrollHeight p - Qceiling (scrollTop p) - clientHeight p in
  let seen := handleScroll p in
  let appended :=
    messageAppended uuid now r content code suggestions height seen in
  (250 ≤ distance → scrollTop appended = scrollTop p)
  ∧ (isAIPanelCollapsed (store p) = false → distance < 250 →
     scrollTop appended = bottom_after height p)
  ∧ (isAIPanelCollapsed (store p) = true →
     scrollTop appended = scrollTop p
     ∧ scrollHeight appended = scrollHeight p)
  ∧ (∀ response,
       scrollTop (handleSend_end uuid now response height seen)
       = if isAIPanelCollapsed (store p) then scrollTop p
         else if distance <? 250 then bottom_after height p else scrollTop p)
  ∧ (∀ text,
       let userInput :=
         match text with
         | Some t => if truthy t then t else input p
         | None => input p
         end in
       let sent := handleSend_begin uuid now text height seen in
       (trim userInput = [] → sent = seen)
       ∧ (trim userInput ≠ [] →
          aiMessages (store sent)
          = aiMessages (store p) ++ [mkMessage uuid user userInput None None now]
          ∧ shouldAutoScroll sent = true
          ∧ (isAIPanelCollapsed (store p) = false →
             scrollTop sent = bottom_after height p)
          ∧ (isAIPanelCollapsed (store p) = true →
             scrollTop sent = scrollTop p))).
Proof.
  cbn zeta.
  unfold messageAppended, rendered, autoScrollEffect, handleScroll, isNearBottom.
  split; [|split; [|split; [|split]]].
  - intros H. simpl.
    destruct (Z.ltb_spec (scrollHeight p - Qceiling (scrollTop p) - clientHeight p) 250);
      [lia|]. by destruct (isAIPanelCollapsed (store p)).
  - intros Hc H. simpl. rewrite Hc. simpl.
    destruct (Z.ltb_spec (scrollHeight p - Qceiling (scrollTop p) - clientHeight p) 250);
      [|lia]. simpl. by rewrite Hc.
  - intros Hc. simpl. rewrite Hc. simpl.
    by destruct (_ <? 250); simpl; rewrite ?Hc.
  - intros response.
    unfold handleSend_end, messageAppended, rendered, autoScrollEffect.
    destruct response; simpl;
      destruct (isAIPanelCollapsed (store p)) eqn:Hc; simpl;
      destruct (scrollHeight p - Qceiling (scrollTop p) - clientHeight p <? 250);
      simpl; rewrite ?Hc; done.
  - intros text. unfold handleSend_begin. simpl.
    destruct (trim _) as [|c u] eqn:E; simpl; [by split|].
    split; [done|]. intros _.
    unfold messageAppended, rendered, autoScrollEffect. simpl.
    destruct (isAIPanelCollapsed (store p)) eqn:Hc; simpl; rewrite ?Hc;
      repeat split; done.
Qed.

Lemma append_scrolls_only_near_bottom_witness :
  scrollTop (messageAppended (js "m-1") 0 assistant (js "ok") None None 40
               far_panel) = 0%Q
  ∧ scrollTop (messageAppended (js "m-1") 0 assistant (js "ok") None None 40
                 near_panel) = inject_Z 1540
  ∧ scrollTop (messageAppended (js "m-1") 0 assistant (js "ok") None None 40
                 collapsed_panel) = inject_Z 1400
  ∧ scrollTop (handleSend_begin (js "m-1") 0 (Some (js "hi")) 40 far_panel)
    = inject_Z 1540.
Proof.
  split; [|split; [|split]].
  - refine (proj1 (append_scrolls_only_near_bottom
                     (mkPanel AppStore.empty [] false true 0%Q 2000 500)
                     (js "m-1") 0 assistant (js "ok") None None 40) _).
    vm_compute. discriminate.
  - refine (proj1 (proj2 (append_scrolls_only_near_bottom
                     (mkPanel AppStore.empty [] false true (inject_Z 1400) 2000 500)
                     (js "m-1") 0 assistant (js "ok") None None 40)) _ _);
      reflexivity.
  - refine (proj1 (proj1 (proj2 (proj2 (append_scrolls_only_near_bottom
                     (mkPanel (toggleAIPanel AppStore.empty) [] false true
                        (inject_Z 1400) 2000 500)
                     (js "m-1") 0 assistant (js "ok") None None 40))) _)).
    reflexivity.
  - pose proof (append_scrolls_only_near_bottom
                  (mkPanel AppStore.empty [] false true 0%Q 2000 500)
                  (js "m-1") 0 user [] None None 40) as (_ & _ & _ & _ & H).
    destruct (H (Some (js "hi"))) as [_ H2].
    destruct H2 as (_ & _ & H3 & _); [vm_compute; discriminate|].
    exact (H3 eq_refl).
Defined.

End ScrollFacts.

(** * Further properties *)

(** ** The store: data sources, queries and the transcript *)

Section StoreMore.
Import AppStore.

Lemma filter_other_ids {A} (f : A → jsstring) (i : jsstring) (l : list A) :
  i ∉ f <$> l → filter (λ x, f x ≠ i) l = l.
Proof.
  induction l as [|x l IH]; [done|]. rewrite fmap_cons.
  intros [Hx Hl]%not_elem_of_cons.
  rewrite filter_cons, decide_True by done. by rewrite IH.
Qed.

(** X1: the connected flag follows the list of data sources.
    [addDataSource] appends the new source and switches the flag on;
    [removeDataSource] keeps the sources that have another id, in their
    order, and sets the flag to whether one is left, whatever the flag
    was; no other mutation changes the list or the flag.  Hence a flag
    that is on exactly when a data source is held stays so under every
    mutation. *)
Theorem isConnected_tracks_sources (mu : Mutation) (s : AppState) :
  match mu with
  | AddDataSource uuid now source =>
      dataSources (step mu s)
      = dataSources s
          ++ [mkDataSource uuid (in_name source) (in_type source) now
                (in_status source)]
      ∧ isConnected (step mu s) = true
  | RemoveDataSource id =>
      dataSources (step mu s) = filter (λ d, ds_id d ≠ id) (dataSources s)
      ∧ (isConnected (step mu s) = true
         ↔ ∃ d, d ∈ dataSources s ∧ ds_id d ≠ id)
  | _ =>
      dataSources (step mu s) = dataSources s
      ∧ isConnected (step mu s) = isConnected s
  end
  ∧ ((isConnected s = true ↔ dataSources s ≠ []) →
     (isConnected (step mu s) = true ↔ dataSources (step mu s) ≠ [])).
Proof.
  assert (∀ id, bool_decide (0 < length (filter (λ d, ds_id d ≠ id)
                                           (dataSources s)))%nat = true
                ↔ ∃ d, d ∈ dataSources s ∧ ds_id d ≠ id) as Hleft.
  { intros id. rewrite bool_decide_eq_true. split.
    - destruct (filter _ (dataSources s)) as [|d l] eqn:E; simpl; [lia|].
      intros _. exists d.
      assert (d ∈ filter (λ d, ds_id d ≠ id) (dataSources s)) as Hd
        by (rewrite E; apply list_elem_of_here).
      apply list_elem_of_filter in Hd. tauto.
    - intros (d & Hd & Hne).
      assert (d ∈ filter (λ d, ds_id d ≠ id) (dataSources s)) as Hin
        by (apply list_elem_of_filter; tauto).
      destruct (filter _ (dataSources s)); simpl; [|lia].
      by apply elem_of_nil in Hin. }
  split.
  - destruct mu; simpl; [done|split; [done|apply Hleft]|done..].
  - intros Hs. destruct mu; simpl; try exact Hs.
    + split; [|done]. intros _. by destruct (dataSources s).
    + rewrite bool_decide_eq_true.
      destruct (filter _ (dataSources s)); simpl; split; (done || lia).
Qed.

Lemma isConnected_tracks_sources_witness :
  isConnected
    (step (RemoveDataSource (js "d-1"))
       (step (AddDataSource (js "d-1") 0 (mkSourceInput (js "a.csv") csv connected))
          empty)) = true
  ↔ dataSources
      (step (RemoveDataSource (js "d-1"))
         (step (AddDataSource (js "d-1") 0 (mkSourceInput (js "a.csv") csv connected))
            empty)) ≠ [].
Proof.
  apply (proj2 (isConnected_tracks_sources (RemoveDataSource (js "d-1")) _)).
  apply (proj2 (isConnected_tracks_sources
                  (AddDataSource (js "d-1") 0
                     (mkSourceInput (js "a.csv") csv connected))
                  empty)).
  simpl. split; [discriminate|]. intros H. by destruct H.
Defined.

(** X2: adding a data source under an identifier no held source has and
    removing it again restores the list of data sources and the connected
    flag of a store whose flag was in step with its list. *)
Theorem add_remove_data_source (uuid : jsstring) (now : Z) (source : SourceInput)
    (s : AppState) :
  uuid ∉ ds_id <$> dataSources s →
  dataSources (removeDataSource uuid (addDataSource uuid now source s))
  = dataSources s
  ∧ isConnected (removeDataSource uuid (addDataSource uuid now source s))
    = bool_decide (dataSources s ≠ []).
Proof.
  intros Hf.
  assert (filter (λ d, ds_id d ≠ uuid)
            (dataSources s
               ++ [mkDataSource uuid (in_name source) (in_type source) now
                     (in_status source)]) = dataSources s) as E.
  { rewrite filter_app, filter_other_ids by done.
    rewrite filter_cons, decide_False by (simpl; tauto).
    by rewrite filter_nil, app_nil_r. }
  unfold removeDataSource, addDataSource. simpl. rewrite E. split; [done|].
  by destruct (dataSources s).
Qed.

Lemma add_remove_data_source_witness :
  dataSources
    (removeDataSource (js "d-1")
       (addDataSource (js "d-1") 0 (mkSourceInput (js "a.csv") csv connected) empty))
  = [].
Proof.
  refine (proj1 (add_remove_data_source (js "d-1") 0
                   (mkSourceInput (js "a.csv") csv connected) empty _)).
  simpl. apply not_elem_of_nil.
Defined.

(** X3: [updateQuery] keeps the number of queries, leaves every query
    with another id as it is, stamps every query with the id with the new
    time even when the update carries an [updatedAt] of its own, and
    changes nothing at all when no query has the id. *)
Theorem updateQuery_effect (id : jsstring) (updates : QueryUpdates) (now : Z)
    (s : AppState) :
  length (queries (updateQuery id updates now s)) = length (queries s)
  ∧ (∀ k q, queries s !! k = Some q → q_id q ≠ id →
       queries (updateQuery id updates now s) !! k = Some q)
  ∧ (∀ k q, queries s !! k = Some q → q_id q = id →
       updatedAt <$> queries (updateQuery id updates now s) !! k = Some now)
  ∧ (id ∉ q_id <$> queries s → updateQuery id updates now s = s).
Proof.
  unfold updateQuery. simpl. split; [by rewrite length_fmap|].
  split; [|split].
  - intros k q Hk Hq. rewrite list_lookup_fmap, Hk. simpl.
    by rewrite decide_False.
  - intros k q Hk Hq. rewrite list_lookup_fmap, Hk. simpl.
    by rewrite decide_True.
  - intros Hid.
    assert ((λ q, if decide (q_id q = id) then merge q updates now else q)
              <$> queries s = queries s) as E.
    { induction (queries s) as [|q l IH]; [done|]. rewrite fmap_cons in Hid.
      apply not_elem_of_cons in Hid as [Hq Hl].
      rewrite fmap_cons, IH by done. by rewrite decide_False. }
    rewrite E. by destruct s.
Qed.

Lemma updateQuery_effect_witness :
  updateQuery (js "q-9")
    (mkUpdates None None None None (Some (js "out")) None None (Some 5)) 7
    one_query = one_query.
Proof.
  refine (proj2 (proj2 (proj2 (updateQuery_effect (js "q-9")
            (mkUpdates None None None None (Some (js "out")) None None (Some 5))
            7 one_query))) _).
  simpl. intros H. apply list_elem_of_singleton in H. discriminate H.
Defined.

Lemma find_after_filter {A} (P Q : A → Prop) `{∀ x, Decision (P x)}
    `{∀ x, Decision (Q x)} (l : list A) :
  (∀ x, P x → Q x) →
  list_find P (filter Q l) ≫= (λ p, Some p.2) = list_find P l ≫= (λ p, Some p.2).
Proof.
  intros HPQ. induction l as [|x l IH]; [done|].
  rewrite filter_cons. destruct (decide (Q x)) as [HQ|HQ].
  - simpl. destruct (decide (P x)); [done|].
    destruct (list_find P (filter Q l)) as [[? ?]|],
             (list_find P l) as [[? ?]|]; simpl in *; congruence.
  - rewrite IH. simpl. destruct (decide (P x)) as [HP|]; [by destruct HQ; auto|].
    by destruct (list_find P l) as [[? ?]|].
Qed.

(** X4: removing a query that is not the active one does not change
    which query [getActiveQuery] returns. *)
Theorem removeQuery_keeps_active_query (id : jsstring) (s : AppState) :
  activeQueryId s ≠ Some id →
  getActiveQuery (removeQuery id s) = getActiveQuery s.
Proof.
  intros Hne.
  assert (activeQueryId (removeQuery id s) = activeQueryId s) as E
    by (unfold removeQuery; simpl; by rewrite decide_False).
  unfold getActiveQuery. rewrite E. unfold removeQuery. simpl.
  apply find_after_filter. intros q Hq Hid. apply Hne. by rewrite <- Hq, Hid.
Qed.

Lemma removeQuery_keeps_active_query_witness :
  getActiveQuery (removeQuery (js "q-2") one_query) = getActiveQuery one_query.
Proof.
  apply (removeQuery_keeps_active_query (js "q-2") one_query).
  intros H. discriminate H.
Defined.

(** X5: when the identifier drawn for a new query is not the id of a held
    query, [getActiveQuery] returns the new query right after [addQuery]. *)
Theorem addQuery_then_getActiveQuery (uuid : jsstring) (created updated : Z)
    (p c : jsstring) (s : AppState) :
  uuid ∉ q_id <$> queries s →
  getActiveQuery (addQuery uuid created updated p c s).2
  = Some (addQuery uuid created updated p c s).1.
Proof.
  intros Hf. unfold getActiveQuery. simpl.
  match goal with
  | |- list_find ?P (?l ++ [?q]) ≫= _ = _ =>
      assert (list_find P (l ++ [q]) = Some (length l, q)) as ->; [|done]
  end.
  apply list_find_Some. split; [|split].
  - by rewrite list_lookup_middle.
  - done.
  - intros j y Hj Hlt. rewrite lookup_app_l in Hj by done.
    intros [= Hy]. apply Hf. rewrite <- Hy. apply list_elem_of_fmap.
    exists y. split; [done|]. by eapply list_elem_of_lookup_2.
Qed.

Lemma addQuery_then_getActiveQuery_witness :
  getActiveQuery (addQuery (js "q-2") 1 1 (js "p") (js "c") one_query).2
  = Some (addQuery (js "q-2") 1 1 (js "p") (js "c") one_query).1.
Proof.
  apply (addQuery_then_getActiveQuery (js "q-2") 1 1 (js "p") (js "c") one_query).
  simpl. intros H. apply list_elem_of_singleton in H. discriminate H.
Defined.

(** X6: the transcript is append-only.  [addAIMessage] leaves the
    earlier messages as they are and puts exactly the message built from
    its arguments after them; [clearAIMessages] empties the transcript
    and touches neither the queries nor the data sources nor the active
    query; no other mutation changes the transcript. *)
Theorem transcript_append_only (mu : Mutation) (s : AppState) :
  match mu with
  | AddAIMessage uuid now r content code suggestions =>
      aiMessages (step mu s)
      = aiMessages s ++ [mkMessage uuid r content code suggestions now]
  | ClearAIMessages =>
      aiMessages (step mu s) = []
      ∧ queries (step mu s) = queries s
      ∧ dataSources (step mu s) = dataSources s
      ∧ isConnected (step mu s) = isConnected s
      ∧ activeQueryId (step mu s) = activeQueryId s
  | _ => aiMessages (step mu s) = aiMessages s
  end.
Proof.
  by destruct mu.
Qed.

(** X7: deleting queries is idempotent and the order of two deletions
    does not matter. *)
Theorem removeQuery_commutes (a b : jsstring) (s : AppState) :
  removeQuery a (removeQuery a s) = removeQuery a s
  ∧ removeQuery a (removeQuery b s) = removeQuery b (removeQuery a s).
Proof.
  unfold removeQuery. simpl. split; f_equal.
  - rewrite list_filter_filter. apply list_filter_iff. tauto.
  - repeat case_decide; congruence.
  - rewrite !list_filter_filter. apply list_filter_iff. tauto.
  - repeat case_decide; congruence.
Qed.

End StoreMore.

(** ** The notebook: the other handlers and the rest of [runAll] *)

Section NotebookMore.
Import Notebook.

(** Two cell lists with the same cells up to status and output. *)
Lemma update_shape (i : jsstring) (f : Cell → Cell) (l : list Cell) :
  (∀ c, id (f c) = id c ∧ code (f c) = code c ∧ type (f c) = type c) →
  id <$> update i f l = id <$> l
  ∧ code <$> update i f l = code <$> l
  ∧ type <$> update i f l = type <$> l.
Proof.
  intros Hf. unfold update. rewrite <- !list_fmap_compose.
  repeat split; apply list_fmap_ext; intros _ c _; simpl;
    destruct (decide (id c = i)); try done; apply Hf.
Qed.

Lemma update_other (i : jsstring) (f : Cell → Cell) (l : list Cell) k c :
  l !! k = Some c → id c ≠ i → update i f l !! k = Some c.
Proof.
  intros Hk Hc. unfold update. rewrite list_lookup_fmap, Hk. simpl.
  by rewrite decide_False.
Qed.

Lemma update_same (i : jsstring) (f : Cell → Cell) (l : list Cell) k c :
  l !! k = Some c → id c = i → update i f l !! k = Some (f c).
Proof.
  intros Hk Hc. unfold update. rewrite list_lookup_fmap, Hk. simpl.
  by rewrite decide_True.
Qed.

Section Remote.
Context {World : Type}.
Variable executeCode : jsstring → jsstring → World → Settled * World.
Variable restartContext : jsstring → World → bool * World.

Lemma runAll_loop_shape clusterId (todo : list Cell) : ∀ prev w,
  id <$> (runAll_loop executeCode clusterId todo prev w).1.1 = id <$> prev
  ∧ code <$> (runAll_loop executeCode clusterId todo prev w).1.1 = code <$> prev
  ∧ type <$> (runAll_loop executeCode clusterId todo prev w).1.1 = type <$> prev.
Proof.
  assert (∀ st o c, id (with_result st o c) = id c
                    ∧ code (with_result st o c) = code c
                    ∧ type (with_result st o c) = type c) as Hr by done.
  assert (∀ st c, id (with_status st c) = id c
                  ∧ code (with_status st c) = code c
                  ∧ type (with_status st c) = type c) as Hs by done.
  induction todo as [|cell todo IH]; intros prev w; [done|].
  cbn [runAll_loop].
  pose proof (update_shape (id cell) _ prev (Hs running)) as (H1 & H2 & H3).
  destruct (type cell).
  - destruct (executeCode clusterId (code cell) w) as [[r|] w'].
    + pose proof (update_shape (id cell) _
                    (update (id cell) (with_status running) prev)
                    (Hr (if bool_decide (r_status r = js "error")
                         then error else success)
                        (or_else (r_error r) (r_output r)))) as (G1 & G2 & G3).
      destruct (bool_decide (r_status r = js "error")).
      * cbn [fst]. by rewrite G1, G2, G3, H1, H2, H3.
      * specialize (IH (update (id cell)
                          (with_result success (or_else (r_error r) (r_output r)))
                          (update (id cell) (with_status running) prev)) w').
        destruct (runAll_loop _ _ _ _ _) as [[cells' w''] evs].
        cbn [fst] in *. destruct IH as (-> & -> & ->).
        by rewrite G1, G2, G3, H1, H2, H3.
    + pose proof (update_shape (id cell) _
                    (update (id cell) (with_status running) prev)
                    (Hr error (Some (js "System Error during Run All"))))
        as (G1 & G2 & G3).
      cbn [fst]. by rewrite G1, G2, G3, H1, H2, H3.
  - pose proof (update_shape (id cell) _
                  (update (id cell) (with_status running) prev)
                  (Hs success)) as (G1 & G2 & G3).
    destruct (IH (update (id cell) (with_status success)
                    (update (id cell) (with_status running) prev)) w)
      as (-> & -> & ->).
    by rewrite G1, G2, G3, H1, H2, H3.
Qed.

(** X8: [runAll] never adds, removes, reorders or edits cells: whatever
    the cluster selection, the backend and the cell ids, the cells it
    leaves have the ids, the code and the types of the cells it was
    given, in the same order. *)
Theorem runAll_keeps_cells (clusterId : option jsstring) (cells : list Cell)
    (w : World) :
  id <$> (runAll executeCode clusterId cells w).1.1 = id <$> cells
  ∧ code <$> (runAll executeCode clusterId cells w).1.1 = code <$> cells
  ∧ type <$> (runAll executeCode clusterId cells w).1.1 = type <$> cells.
Proof.
  unfold runAll. destruct clusterId as [cid|]; [|done].
  destruct (truthy cid); [|done].
  destruct (runAll_loop_shape cid cells (reset <$> cells) w) as (-> & -> & ->).
  rewrite <- !list_fmap_compose. repeat split; by apply list_fmap_ext.
Qed.

Lemma runAll_loop_clean clusterId (w' : World) :
  ∀ (todo done : list Cell) (w : World),
    NoDup (id <$> (done ++ todo)) →
    runs_clean executeCode clusterId todo w = Some w' →
    ∃ done',
      runAll_loop executeCode clusterId todo (done ++ (reset <$> todo)) w
      = (done ++ done', w',
         ExecuteCode clusterId <$> (code <$> List.filter is_code todo))
      ∧ length done' = length todo
      ∧ Forall (λ c, status c = success) done'.
Proof.
  induction todo as [|c todo IH]; intros done w Hnd Hclean.
  - simpl in Hclean. injection Hclean as ->. exists []. simpl.
    split; [reflexivity|]. split; [reflexivity|constructor].
  - destruct (ids_focus _ _ _ Hnd) as [Hd Hp].
    cbn [runAll_loop]. rewrite fmap_cons.
    rewrite (update_focus (id c) _ done _ (reset c))
      by (by rewrite ?reset_ids).
    simpl in Hclean.
    assert (∀ c', id c' = id c → NoDup (id <$> ((done ++ [c']) ++ todo)))
      as Hnd'.
    { intros c' Hc'. rewrite <- app_assoc. simpl.
      rewrite fmap_app, fmap_cons, Hc', <- fmap_cons, <- fmap_app. done. }
    destruct (type c) eqn:Ht.
    + destruct (executeCode clusterId (code c) w) as [[r|] w2] eqn:E; [|done].
      destruct (bool_decide (r_status r = js "error")) eqn:Hr; [done|].
      rewrite (update_focus (id c) _ done _) by (by rewrite ?reset_ids).
      set (c' := with_result success _ _).
      destruct (IH (done ++ [c']) w2 (Hnd' c' eq_refl) Hclean)
        as (done' & Hrun & Hlen & Hall).
      rewrite <- app_assoc in Hrun. simpl in Hrun. rewrite Hrun.
      exists (c' :: done'). split; [|split].
      * rewrite <- app_assoc. simpl.
        by replace (is_code c) with true by (unfold is_code; by rewrite Ht).
      * simpl. by rewrite Hlen.
      * by constructor.
    + rewrite (update_focus (id c) _ done _) by (by rewrite ?reset_ids).
      set (c' := with_status success _).
      destruct (IH (done ++ [c']) w (Hnd' c' eq_refl) Hclean)
        as (done' & Hrun & Hlen & Hall).
      rewrite <- app_assoc in Hrun. simpl in Hrun. rewrite Hrun.
      exists (c' :: done'). split; [|split].
      * rewrite <- app_assoc. simpl.
        by replace (is_code c) with false by (unfold is_code; by rewrite Ht).
      * simpl. by rewrite Hlen.
      * by constructor.
Qed.

(** X9: when a cluster is selected, the cell ids are pairwise distinct
    and no code cell resolves to error, [runAll] sends the code of every
    code cell to the backend once, in cell order, shows no error toast
    and leaves every cell, markdown cells included, with status
    success. *)
Theorem runAll_all_succeed (clusterId : jsstring) (cells : list Cell)
    (w w' : World) :
  truthy clusterId = true →
  NoDup (id <$> cells) →
  runs_clean executeCode clusterId cells w = Some w' →
  ∃ cells',
    runAll executeCode (Some clusterId) cells w
    = (cells', w',
       ExecuteCode clusterId <$> (code <$> List.filter is_code cells))
    ∧ length cells' = length cells
    ∧ Forall (λ c, status c = success) cells'.
Proof.
  intros Hc Hnd Hclean. unfold runAll. rewrite Hc.
  destruct (runAll_loop_clean clusterId w' cells [] w Hnd Hclean)
    as (done' & Hrun & H).
  exists done'. split; [exact Hrun|exact H].
Qed.

(** X10: [executeCell] only ever changes the status and output of the
    cells with the given id.  It contacts the backend at most once, and
    only for a code cell while a cluster is selected; a markdown cell
    becomes success without a cluster and without a call; a code cell
    ends in error exactly when the call reports error or throws. *)
Theorem executeCell_effect (clusterId : option jsstring) (i : jsstring)
    (cells : list Cell) (w : World) :
  let r := executeCell executeCode clusterId i cells w in
  (∀ st, st ∈ r.1.1 →
     id <$> st = id <$> cells ∧ code <$> st = code <$> cells
     ∧ type <$> st = type <$> cells
     ∧ ∀ k c, cells !! k = Some c → id c ≠ i → st !! k = Some c)
  ∧ (i ∉ id <$> cells → r = ([], w, []))
  ∧ (selected clusterId = None → executed r.2 = [] ∧ r.1.2 = w)
  ∧ (∀ j cell, list_find (λ c, id c = i) cells = Some (j, cell) →
       match type cell with
       | markdown_cell =>
           executed r.2 = [] ∧ r.1.2 = w
           ∧ ∀ k c, cells !! k = Some c → id c = i →
               status <$> final cells r.1.1 !! k = Some success
       | code_cell =>
           ∀ cid, selected clusterId = Some cid →
             executed r.2 = [code cell]
             ∧ r.1.2 = (executeCode cid (code cell) w).2
             ∧ ∀ k c, cells !! k = Some c → id c = i →
                 status <$> final cells r.1.1 !! k
                 = Some (if fails executeCode cid cell w then error else success)
       end).
Proof.
  assert (∀ st o c, id (with_result st o c) = id c
                    ∧ code (with_result st o c) = code c
                    ∧ type (with_result st o c) = type c) as Hr by done.
  assert (∀ st c, id (with_status st c) = id c
                  ∧ code (with_status st c) = code c
                  ∧ type (with_status st c) = type c) as Hs by done.
  assert (∀ f, (∀ c, id (f c) = id c ∧ code (f c) = code c
                     ∧ type (f c) = type c) →
            id <$> update i f cells = id <$> cells
            ∧ code <$> update i f cells = code <$> cells
            ∧ type <$> update i f cells = type <$> cells
            ∧ ∀ k c, cells !! k = Some c → id c ≠ i →
                update i f cells !! k = Some c) as Hup.
  { intros f Hf. destruct (update_shape i f cells Hf) as (-> & -> & ->).
    repeat split. intros k c. apply update_other. }
  assert (∀ a b : list Cell, final cells [a; b] = b) as Hf2 by done.
  assert (∀ a : list Cell, final cells [a] = a) as Hf1 by done.
  cbn zeta. unfold executeCell.
  destruct (list_find (λ c, id c = i) cells) as [[j cell]|] eqn:Hfind.
  2:{ split; [by intros st Hst%elem_of_nil|]. split; [done|]. split; [done|].
      by intros j cell [=]. }
  pose proof (proj1 (list_find_Some _ _ _ _) Hfind) as (Hj & Hid & _).
  split; [|split; [|split]].
  - intros st Hst. destruct (type cell).
    + destruct (selected clusterId) as [cid|]; [|by apply elem_of_nil in Hst].
      destruct (executeCode cid (code cell) w) as [[res|] w'];
        cbn [fst snd] in Hst;
        apply elem_of_cons in Hst as [->|Hst];
        try (apply list_elem_of_singleton in Hst as ->);
        apply Hup; first [apply Hr|apply Hs].
    + cbn [fst snd] in Hst. apply list_elem_of_singleton in Hst as ->.
      apply Hup, Hs.
  - intros Hni. destruct Hni. rewrite <- Hid. apply list_elem_of_fmap.
    exists cell. split; [done|]. by eapply list_elem_of_lookup_2.
  - intros Hsel. rewrite Hsel. by destruct (type cell).
  - intros j' cell' [= <- <-]. destruct (type cell) eqn:Ht.
    + intros cid Hsel. rewrite Hsel. unfold fails. rewrite Ht.
      destruct (executeCode cid (code cell) w) as [[res|] w'];
        cbn [fst snd]; rewrite Hf2.
      all: split; [reflexivity|]; split; [reflexivity|].
      all: intros k c Hk Hc; rewrite (update_same _ _ _ _ _ Hk Hc); simpl.
      all: first [done|by destruct (bool_decide _)].
    + cbn [fst snd]. rewrite Hf1. split; [done|]. split; [done|].
      intros k c Hk Hc. by rewrite (update_same _ _ _ _ _ Hk Hc).
Qed.

(** X11: [clearOutputs] leaves every cell idle and without output and
    keeps ids, code, types and order; doing it twice is doing it once.
    [restartKernel] with a cluster selected leaves the same cells
    whether the backend call succeeds or fails, after asking once for
    that cluster; without a cluster it does nothing. *)
Theorem clearOutputs_restartKernel (clusterId : option jsstring)
    (cells : list Cell) (w : World) :
  Forall (λ c, status c = idle ∧ output c = None) (clearOutputs cells).1
  ∧ id <$> (clearOutputs cells).1 = id <$> cells
  ∧ code <$> (clearOutputs cells).1 = code <$> cells
  ∧ type <$> (clearOutputs cells).1 = type <$> cells
  ∧ (clearOutputs (clearOutputs cells).1).1 = (clearOutputs cells).1
  ∧ match selected clusterId with
    | Some cid =>
        (restartKernel restartContext clusterId cells w).1.1.1
        = (clearOutputs cells).1
        ∧ (restartKernel restartContext clusterId cells w).1.2 = [cid]
    | None =>
        restartKernel restartContext clusterId cells w = (cells, w, [], None)
    end.
Proof.
  unfold clearOutputs, restartKernel. cbn [fst].
  split; [apply Forall_fmap, Forall_forall; by intros|].
  rewrite <- !list_fmap_compose.
  repeat split; try (by apply list_fmap_ext).
  destruct (selected clusterId) as [cid|]; [|done].
  by destruct (restartContext cid w).
Qed.
End Remote.

(** X12: a cell added under an id that no cell has is appended idle, and
    deleting by that id gives back the list as it was; deleting removes
    exactly the cells with the id and keeps the others in order. *)
Theorem addCell_onDelete (fresh i : jsstring) (t : CellType) (cells : list Cell) :
  fresh ∉ id <$> cells →
  onDelete fresh (addCell fresh t cells) = cells
  ∧ (status <$> list.last (addCell fresh t cells)) = Some idle
  ∧ (∀ c, c ∈ onDelete i cells ↔ c ∈ cells ∧ id c ≠ i)
  ∧ onDelete i cells `sublist_of` cells.
Proof.
  intros Hf. unfold onDelete, addCell. split; [|split; [|split]].
  - rewrite filter_app, filter_cons, decide_False by (simpl; tauto).
    rewrite filter_nil, app_nil_r.
    induction cells as [|c l IH]; [done|]. rewrite fmap_cons in Hf.
    apply not_elem_of_cons in Hf as [Hc Hl].
    rewrite filter_cons, decide_True by done. by rewrite IH.
  - by rewrite last_snoc.
  - intros c. rewrite list_elem_of_filter. tauto.
  - apply sublist_filter.
Qed.

Lemma addCell_onDelete_witness :
  onDelete (js "9") (addCell (js "9") markdown_cell [cellA; cellB]) = [cellA; cellB].
Proof.
  refine (proj1 (addCell_onDelete (js "9") (js "1") markdown_cell [cellA; cellB] _)).
  apply (bool_decide_unpack _). vm_compute. exact I.
Defined.

(** X13: editing a cell's code changes the code of the cells with that
    id and nothing else: status and output stay as they were, so the
    output of an earlier run stays next to the edited code; of two edits
    of the same cell the last one wins. *)
Theorem handleCellChange_effect (i v1 v2 : jsstring) (cells : list Cell) :
  handleCellChange i v2 (handleCellChange i v1 cells) = handleCellChange i v2 cells
  ∧ status <$> handleCellChange i v2 cells = status <$> cells
  ∧ output <$> handleCellChange i v2 cells = output <$> cells
  ∧ id <$> handleCellChange i v2 cells = id <$> cells
  ∧ (∀ k c, cells !! k = Some c →
       code <$> handleCellChange i v2 cells !! k
       = Some (if decide (id c = i) then v2 else code c)).
Proof.
  unfold handleCellChange, update. rewrite <- !list_fmap_compose.
  split; [|split; [|split; [|split]]].
  - apply list_fmap_ext. intros _ c _. simpl.
    destruct (decide (id c = i)); simpl; [by rewrite decide_True|].
    by rewrite decide_False.
  - apply list_fmap_ext. intros _ c _. simpl. by destruct (decide (id c = i)).
  - apply list_fmap_ext. intros _ c _. simpl. by destruct (decide (id c = i)).
  - apply list_fmap_ext. intros _ c _. simpl. by destruct (decide (id c = i)).
  - intros k c Hk. rewrite list_lookup_fmap, Hk. simpl.
    by destruct (decide (id c = i)).
Qed.

(** X14: for a cell that is not last, [moveDown] puts it one place later
    and [moveUp] on it then restores the original order; [moveUp] on the
    first cell and [moveDown] on the last cell change nothing. *)
Theorem moveDown_then_moveUp (cells : list Cell) (index : nat) :
  (index + 1 < length cells)%nat →
  onMoveDown cells index !! (index + 1)%nat = cells !! index
  ∧ onMoveUp (onMoveDown cells index) (index + 1) = cells
  ∧ onMoveUp cells 0 = cells
  ∧ onMoveDown cells (length cells - 1) = cells.
Proof.
  intros Hlt.
  destruct (lookup_lt_is_Some_2 cells index ltac:(lia)) as [x Hx].
  destruct (lookup_lt_is_Some_2 cells (S index) ltac:(lia)) as [y Hy].
  destruct (adjacent cells index x y Hx Hy) as (l1 & l2 & -> & <-).
  assert (onMoveDown (l1 ++ x :: y :: l2) (length l1) = l1 ++ y :: x :: l2) as E.
  { unfold onMoveDown.
    destruct (Z.eqb_spec (Z.of_nat (length l1))
                (Z.of_nat (length (l1 ++ x :: y :: l2)) - 1)) as [E|_].
    - rewrite length_app in E. simpl in E. lia.
    - replace (length l1 + 1)%nat with (S (length l1)) by lia.
      apply swap_adjacent. }
  rewrite E. split; [|split; [|split]].
  - rewrite (list_lookup_middle l1 (y :: l2) x (length l1)) by done.
    rewrite lookup_app_r by lia.
    by replace (length l1 + 1 - length l1)%nat with 1%nat by lia.
  - unfold onMoveUp. replace (length l1 + 1)%nat with (S (length l1)) by lia.
    simpl. rewrite Nat.sub_0_r. apply swap_adjacent.
  - reflexivity.
  - unfold onMoveDown.
    match goal with
    | |- (if ?b then _ else _) = _ => replace b with true; [done|]
    end.
    symmetry. apply Z.eqb_eq. rewrite length_app. simpl. lia.
Qed.

Lemma moveDown_then_moveUp_witness :
  onMoveUp (onMoveDown [cellA; cellB; cellC] 0) (0 + 1) = [cellA; cellB; cellC].
Proof.
  refine (proj1 (proj2 (moveDown_then_moveUp [cellA; cellB; cellC] 0 _))).
  simpl. lia.
Defined.

Lemma runAll_all_succeed_witness :
  ∃ cells',
    runAll sample_backend (Some (js "cluster-1")) [cellB; cellC] tt
    = (cells', tt,
       ExecuteCode (js "cluster-1") <$> (code <$> List.filter is_code [cellB; cellC]))
    ∧ length cells' = length [cellB; cellC]
    ∧ Forall (λ c, status c = success) cells'.
Proof.
  apply (runAll_all_succeed sample_backend (js "cluster-1") [cellB; cellC] tt tt).
  - reflexivity.
  - apply (bool_decide_unpack _). vm_compute. exact I.
  - reflexivity.
Defined.

End NotebookMore.

(** ** Uploads: file types, the error banner and the two upload paths *)

Section UploadMore.
Import AppStore UploadZone.

Lemma split_no_sep (sep : N) (s : jsstring) : sep ∉ s → split sep s = [s].
Proof.
  induction s as [|c s IH]; [done|]. intros [Hc Hs]%not_elem_of_cons. simpl.
  destruct (N.eqb_spec c sep) as [->|_]; [done|]. by rewrite IH.
Qed.

Lemma split_last_part (sep : N) (ext : jsstring) :
  sep ∉ ext →
  ∀ stem, ∃ l pre, split sep (stem ++ sep :: ext) = l :: pre ++ [ext].
Proof.
  intros Hext. induction stem as [|c stem (l & pre & IH)]; simpl.
  - rewrite N.eqb_refl, split_no_sep by done. by exists [], [].
  - rewrite IH. destruct (c =? sep)%N.
    + by exists [], (l :: pre).
    + by exists (c :: l), pre.
Qed.

(** X15: the type of an uploaded file is read off the part of its name
    after the last dot, whatever its letter case: [csv] gives csv, [json]
    gives json and everything else excel.  A name without a dot is
    compared as a whole. *)
Theorem source_type_by_extension (stem ext bytes : jsstring) :
  46%N ∉ ext →
  source_type (mkFile (stem ++ [46%N] ++ ext) bytes)
  = (if decide (toLowerCase ext = js "csv") then csv
     else if decide (toLowerCase ext = js "json") then json else excel)
  ∧ source_type (mkFile ext bytes)
    = (if decide (toLowerCase ext = js "csv") then csv
       else if decide (toLowerCase ext = js "json") then json else excel).
Proof.
  intros Hext. unfold source_type, extension. simpl.
  destruct (split_last_part 46%N ext Hext stem) as (l & pre & ->).
  rewrite split_no_sep by done.
  rewrite app_comm_cons, last_snoc. simpl.
  split; repeat case_decide; congruence.
Qed.

Lemma source_type_by_extension_witness :
  source_type (mkFile (js "q3.report" ++ [46%N] ++ js "CSV") (js "a,b")) = csv
  ∧ source_type (mkFile (js "notes") (js "x")) = excel.
Proof.
  split.
  - refine (eq_trans (proj1 (source_type_by_extension (js "q3.report") (js "CSV")
                               (js "a,b") _)) _).
    + apply (bool_decide_unpack _). vm_compute. exact I.
    + reflexivity.
  - refine (eq_trans (proj2 (source_type_by_extension [] (js "notes") (js "x") _)) _).
    + apply (bool_decide_unpack _). vm_compute. exact I.
    + reflexivity.
Defined.

Section Remote.
Context {World : Type}.
Variable uploadFile : File → World → Settled * World.
Variable randomUUID : World → jsstring * World.
Variable now : World → Z * World.

Lemma failure_texts_cons (f : File) (r : Settled) (fs : list File)
    (rs : list Settled) :
  failure_texts (f :: fs) (r :: rs)
  = match r with
    | Failed m => failure_text f m :: failure_texts fs rs
    | Uploaded _ => failure_texts fs rs
    end.
Proof. by destruct r. Qed.

Lemma upload_loop_banner (files : list File) : ∀ (z : Zone) (w : World),
  uploadError (upload_loop uploadFile randomUUID now files z w).1.1
  = match list.last (failure_texts files
                       (settlements uploadFile randomUUID now files w)) with
    | Some t => Some t
    | None => uploadError z
    end
  ∧ isConnected (store (upload_loop uploadFile randomUUID now files z w).1.1)
    = match files with [] => isConnected (store z) | _ :: _ => true end
  ∧ length (dataSources
              (store (upload_loop uploadFile randomUUID now files z w).1.1))
    = (length (dataSources (store z)) + length files)%nat.
Proof.
  induction files as [|f files IH]; intros z w.
  - simpl. split; [done|]. split; [done|lia].
  - cbn [upload_loop settlements]. unfold UploadZone.addDataSource.
    destruct (uploadFile f w) as [[fid|msg] w1].
    all: destruct (randomUUID w1) as [uuid w2].
    all: destruct (now w2) as [t w3].
    all: match goal with
         | |- context [upload_loop _ _ _ ?fs ?z' ?w'] =>
             destruct (IH z' w') as (Hb & Hc & Hl);
             destruct (upload_loop uploadFile randomUUID now fs z' w')
               as [[z'' w''] calls]
         end.
    all: cbn [fst snd] in *.
    all: rewrite failure_texts_cons, ?last_cons.
    all: rewrite Hb, Hl; cbn [uploadError store dataSources].
    all: split; [by destruct (list.last _)|].
    all: split; [|cbn; rewrite length_app; simpl; lia].
    all: rewrite Hc; by destruct files.
Qed.

(** X16: after a batch the upload error banner holds the failure text
    of the last file whose upload failed, and is empty exactly when no
    upload of the batch failed; an error left by an earlier batch is
    cleared. *)
Theorem uploadError_is_last_failure (files : list File) (z : Zone) (w : World) :
  uploadError (uploadFilesToBackend uploadFile randomUUID now files z w).1.1
  = list.last (failure_texts files
                 (settlements uploadFile randomUUID now files w)).
Proof.
  unfold uploadFilesToBackend.
  destruct (upload_loop_banner files (mkZone (store z) true None) w) as (Hb & _).
  destruct (upload_loop _ _ _ files _ w) as [[z' w'] calls].
  cbn [fst snd uploadError] in *. rewrite Hb. by destruct (list.last _).
Qed.

(** X17: a batch of at least one file leaves the store connected and
    one data source longer per file, even when every upload failed. *)
Theorem batch_connects_store (files : list File) (z : Zone) (w : World) :
  files ≠ [] →
  isConnected
    (store (uploadFilesToBackend uploadFile randomUUID now files z w).1.1)
  = true
  ∧ length (dataSources
              (store (uploadFilesToBackend uploadFile randomUUID now files z w).1.1))
    = (length (dataSources (store z)) + length files)%nat.
Proof.
  intros Hne. unfold uploadFilesToBackend.
  destruct (upload_loop_banner files (mkZone (store z) true None) w)
    as (_ & Hc & Hl).
  destruct (upload_loop _ _ _ files _ w) as [[z' w'] calls].
  cbn [fst snd store] in *. rewrite Hc, Hl. by destruct files.
Qed.

Lemma dropdown_loop_same (files : list File) : ∀ (z : Zone) (w : World),
  (AddDataSourceDropdown.upload_loop uploadFile randomUUID now files (store z) w).1.1
  = store (upload_loop uploadFile randomUUID now files z w).1.1
  ∧ (AddDataSourceDropdown.upload_loop uploadFile randomUUID now files (store z) w).1.2
    = (upload_loop uploadFile randomUUID now files z w).1.2
  ∧ (AddDataSourceDropdown.upload_loop uploadFile randomUUID now files (store z) w).2
    = (upload_loop uploadFile randomUUID now files z w).2.
Proof.
  induction files as [|f files IH]; intros z w; [done|].
  cbn [upload_loop AddDataSourceDropdown.upload_loop].
  destruct (uploadFile f w) as [[fid|msg] w1].
  all: destruct (UploadZone.addDataSource randomUUID now _ (store z) w1)
         as [s1 w2].
  all: match goal with
       | |- context [UploadZone.upload_loop _ _ _ ?fs ?z' ?w'] =>
           specialize (IH z' w');
           destruct (upload_loop uploadFile randomUUID now fs z' w')
             as [[z'' w''] calls]
       end.
  all: cbn [store] in IH.
  all: destruct (AddDataSourceDropdown.upload_loop _ _ _ _ s1 w2)
         as [[s'' w3] calls'].
  all: cbn [fst snd] in *; destruct IH as (-> & -> & ->); done.
Qed.

(** X18: the upload menu and the upload zone treat a batch alike: from
    the same store and the same world they hand the same files to the
    backend and leave the same store, world and uploading flag. *)
Theorem dropdown_matches_zone (files : list File) (z : Zone) (w : World) :
  let menu :=
    AddDataSourceDropdown.handleFileInputChange uploadFile randomUUID now
      files (store z) w in
  let zone := uploadFilesToBackend uploadFile randomUUID now files z w in
  menu.1.1.1 = store zone.1.1
  ∧ menu.1.1.2 = isUploading zone.1.1
  ∧ menu.1.2 = zone.1.2
  ∧ menu.2 = zone.2.
Proof.
  cbn zeta.
  unfold AddDataSourceDropdown.handleFileInputChange, uploadFilesToBackend.
  pose proof (dropdown_loop_same files (mkZone (store z) true None) w) as H.
  cbn [store] in H.
  destruct (upload_loop _ _ _ files _ w) as [[z' w'] calls].
  destruct (AddDataSourceDropdown.upload_loop _ _ _ files _ w)
    as [[s' w''] calls'].
  cbn [fst snd] in *. destruct H as (-> & -> & ->). done.
Qed.
End Remote.

Lemma batch_connects_store_witness :
  isConnected
    (store (uploadFilesToBackend sample_upload sample_uuid sample_now [F2]
              idle_zone 0%nat).1.1) = true.
Proof.
  refine (proj1 (batch_connects_store sample_upload sample_uuid sample_now [F2]
                   idle_zone 0%nat _)).
  discriminate.
Defined.

End UploadMore.

(** ** The parser: when it cuts, and what it returns *)

Section ParserMore.
Import Regex AIAssistant.

Lemma lit_match_same ci (l : jsstring) : ∀ w t,
  canonicalize ci <$> w = canonicalize ci <$> l →
  lit_match ci l (w ++ t) = Some t.
Proof.
  induction l as [|a l IH]; intros w t H.
  - destruct w; [by destruct t|done].
  - destruct w as [|c w]; [done|]. rewrite !fmap_cons in H.
    injection H as Hc Hw. simpl. rewrite Hc, N.eqb_refl. by apply IH.
Qed.

Lemma den_suffix ci (r : regex) : ∀ x y,
  den ci r x y → ∃ w, x.2 = w ++ y.2.
Proof.
  induction r as [l|p| | | |r1 IH1 r2 IH2|r1 IH1 r2 IH2|g r1 IH1|r1 IH1];
    intros x y H; simpl in H.
  - destruct H as [H _]. apply lit_match_prefix in H as (w & -> & _). by exists w.
  - destruct H as (c & -> & _). by exists [c].
  - destruct H as [_ ->]. by exists [].
  - destruct H as [_ ->]. by exists [].
  - subst y. by exists [].
  - destruct H as (z & H1 & H2).
    apply IH1 in H1 as [w1 ->]. apply IH2 in H2 as [w2 ->].
    exists (w1 ++ w2). by rewrite app_assoc.
  - destruct H as [H|H]; eauto.
  - induction H as [x|x z y Hxz _ [w2 IH]]; [by exists []|].
    apply IH1 in Hxz as [w1 ->]. rewrite IH. exists (w1 ++ w2).
    by rewrite app_assoc.
  - eauto.
Qed.

Lemma exec_from_unfold ci (r : regex) (p : nat) (s : jsstring) :
  exec_from ci r p s
  = match m ci r (mkM p s []) Some with
    | Some st => Some (p, st)
    | None =>
        match s with
        | [] => None
        | _ :: s' => exec_from ci r (S p) s'
        end
    end.
Proof. by destruct s. Qed.

(** [exec] finds a match whenever the pattern matches at some index. *)
Lemma exec_from_finds ci (r : regex) (b : jsstring) : ∀ a p,
  is_Some (m ci r (mkM (p + length a) b []) Some) →
  is_Some (exec_from ci r p (a ++ b)).
Proof.
  induction a as [|c a IH]; intros p H; rewrite exec_from_unfold.
  - simpl in *. rewrite Nat.add_0_r in H. destruct H as [st ->]. by eexists.
  - destruct (m ci r (mkM p _ _) Some); [by eexists|]. simpl. apply IH.
    by replace (S p + length a)%nat with (p + length (c :: a))%nat
      by (simpl; lia).
Qed.

Lemma any_always (c : N) : any c = true.
Proof. unfold any. by destruct (is_space c). Qed.

(** The greedy [[\s\S]*] runs to the end of the text when the
    continuation accepts there. *)
Lemma star_any_to_end ci
    (body : mstate → (mstate → option mstate) → option mstate)
    (k : mstate → option mstate) (x : mstate) (caps : list (nat * nat)) :
  (∀ st k', body st k' = m ci (Cls any) st k') →
  ∀ s p,
    k (mkM (p + length s) [] caps) = Some x →
    star_loop true body k (length s) (mkM p s caps) = Some x.
Proof.
  intros Hbody. induction s as [|c s IH]; intros p H.
  - simpl in *. by rewrite Nat.add_0_r in H.
  - cbn [length star_loop]. rewrite Hbody.
    cbn [m rest pos Regex.caps]. rewrite any_always.
    replace (S p =? p)%nat with false by (symmetry; apply Nat.eqb_neq; lia).
    rewrite IH; [done|].
    by replace (S p + length s)%nat with (p + length (c :: s))%nat
      by (simpl; lia).
Qed.

Lemma m_seq ci (r1 r2 : regex) st k :
  m ci (Seq r1 r2) st k = m ci r1 st (λ st1, m ci r2 st1 k).
Proof. reflexivity. Qed.

Lemma m_alt ci (r1 r2 : regex) st k :
  m ci (Alt r1 r2) st k
  = match m ci r1 st k with Some x => Some x | None => m ci r2 st k end.
Proof. reflexivity. Qed.

Lemma m_lit_same ci (l w t : jsstring) p caps k :
  canonicalize ci <$> w = canonicalize ci <$> l →
  m ci (Lit l) (mkM p (w ++ t) caps) k = k (mkM (p + length l) t caps).
Proof. intros H. cbn [m rest pos Regex.caps]. by rewrite lit_match_same. Qed.

Lemma m_grp_star ci g (r : regex) st k :
  m ci (Grp (Star g r)) st k
  = star_loop g (m ci r)
      (λ st', k (mkM (pos st') (rest st') (Regex.caps st' ++ [(pos st, pos st')])))
      (length (rest st)) st.
Proof. reflexivity. Qed.

Lemma section_body_matches (p : nat) (after : jsstring) (caps : list (nat * nat)) :
  is_Some (m true (Seq (Lit (js ":")) (Seq (Grp (Star true (Cls any))) Eol))
             (mkM p (js ":" ++ after) caps) Some).
Proof.
  rewrite m_seq, (m_lit_same true (js ":") (js ":")) by done.
  rewrite m_seq, m_grp_star. cbn [rest].
  erewrite (star_any_to_end true); [by eexists|done|reflexivity].
Qed.

Lemma section_word_matches (p : nat) (word after : jsstring)
    (caps : list (nat * nat)) :
  same_letters word (js "Suggestions")
  ∨ same_letters word (js "Suggested Next Steps") →
  is_Some (m true
             (Seq (Alt (Lit (js "Suggestions")) (Lit (js "Suggested Next Steps")))
                (Seq (Lit (js ":")) (Seq (Grp (Star true (Cls any))) Eol)))
             (mkM p (word ++ js ":" ++ after) caps) Some).
Proof.
  intros Hw. rewrite m_seq, m_alt. destruct Hw as [Hw|Hw].
  - rewrite (m_lit_same true _ word) by done.
    destruct (section_body_matches (p + length (js "Suggestions")) after caps)
      as [x ->]. by eexists.
  - destruct (m true (Lit (js "Suggestions")) _ _); [by eexists|].
    rewrite (m_lit_same true _ word) by done. apply section_body_matches.
Qed.

(** The suggestion pattern matches wherever the text has a section
    marker. *)
Lemma marker_found (s : jsstring) :
  has_marker s → is_Some (exec true suggestion_re s).
Proof.
  intros (before & word & after & -> & Hstart & Hw). unfold exec.
  destruct Hstart as [->|[b ->]].
  - apply (exec_from_finds true suggestion_re _ [] 0). simpl length.
    unfold suggestion_re. rewrite m_seq, m_alt.
    change (m true Bol (mkM (0 + 0) ?s ?c) ?k) with (k (mkM 0 s c)).
    destruct (section_word_matches 0 word after [] Hw) as [x ->]. by eexists.
  - rewrite <- (app_assoc b [LF]).
    apply (exec_from_finds true suggestion_re _ b 0).
    unfold suggestion_re. rewrite m_seq, m_alt.
    destruct (m true Bol _ _); [by eexists|].
    rewrite (m_lit_same true [LF] [LF]) by done.
    apply (section_word_matches _ word after [] Hw).
Qed.

Lemma trimStart_length (s : jsstring) : (length (trimStart s) ≤ length s)%nat.
Proof.
  induction s as [|c s IH]; simpl; [done|]. destruct (is_space c); simpl; lia.
Qed.

Lemma trim_length (s : jsstring) : (length (trim s) ≤ length s)%nat.
Proof.
  unfold trim, trimEnd. rewrite length_reverse.
  etrans; [apply trimStart_length|]. rewrite length_reverse.
  apply trimStart_length.
Qed.

(** X19: the suggestion pattern finds a match exactly in the texts with
    a section marker (one of the two section words in any letter case,
    followed by a colon, at the start of the text or of a line); so a
    reply without a fence is returned unchanged as content exactly when
    it has no section marker. *)
Theorem marker_decides_cut (text : jsstring) :
  (exec true suggestion_re text = None ↔ ¬ has_marker text)
  ∧ (¬ has_fence text →
     (p_content (parseResponse text) = text ↔ ¬ has_marker text)).
Proof.
  assert (exec true suggestion_re text = None ↔ ¬ has_marker text) as Hiff.
  { split.
    - intros Hx Hm. apply marker_found in Hm as [x Hm]. congruence.
    - intros Hm. destruct (exec true suggestion_re text) as [[i st]|] eqn:Hx;
        [|done].
      destruct Hm. by apply exec_suggestion_marker in Hx. }
  split; [exact Hiff|]. intros Hf.
  assert (includes fence text = false) as Hi.
  { destruct (includes fence text) eqn:Hi; [|done].
    destruct Hf. by apply includes_infix. }
  unfold parseResponse, extract_code. rewrite Hi.
  destruct (exec true suggestion_re text) as [[i st]|] eqn:Hx.
  - split; [|intros Hm; apply Hiff in Hm; congruence].
    intros Hc. exfalso. simpl in Hc. unfold exec in Hx.
    apply exec_from_sound in Hx as (a & b & -> & -> & D).
    destruct D as (z1 & D1 & z2 & D2 & z3 & [D3 _] & _).
    apply den_suffix in D1 as [w1 E1]. apply den_suffix in D2 as [w2 E2].
    apply lit_match_prefix in D3 as (w3 & E3 & Hw3).
    apply (same_letters_one w3 58%N) in Hw3; [subst w3|done].
    cbn [fst snd] in *.
    assert (length (trim (substring_to (0 + length a) (a ++ b)))
            = length (a ++ b)) as Hlen by (by rewrite Hc).
    pose proof (trim_length (substring_to (0 + length a) (a ++ b))) as Hle.
    unfold substring_to in *. rewrite length_take in Hle.
    rewrite Hlen, E1, E2, E3, !length_app in Hle. simpl in Hle. lia.
  - split; [by intros _; apply Hiff|done].
Qed.

Lemma trimStart_no_lead (s : jsstring) : no_lead (trimStart s).
Proof.
  induction s as [|c s IH]; simpl; [done|].
  destruct (is_space c) eqn:E; [done|]. by simpl.
Qed.

Lemma trimStart_suffix (s : jsstring) : ∃ pre, s = pre ++ trimStart s.
Proof.
  induction s as [|c s [pre IH]]; simpl; [by exists []|].
  destruct (is_space c); [|by exists []].
  exists (c :: pre). simpl. by rewrite <- IH.
Qed.

Lemma trimEnd_no_lead (s : jsstring) : no_lead s → no_lead (trimEnd s).
Proof.
  intros Hs. unfold trimEnd.
  destruct (trimStart_suffix (reverse s)) as [pre E].
  apply (f_equal reverse) in E. rewrite reverse_involutive, reverse_app in E.
  destruct (reverse (trimStart (reverse s))) as [|c u]; [done|].
  rewrite E in Hs. exact Hs.
Qed.

Lemma trim_trimmed (s : jsstring) : trimmed (trim s).
Proof.
  split.
  - apply trimEnd_no_lead, trimStart_no_lead.
  - unfold trim, trimEnd. rewrite reverse_involutive. apply trimStart_no_lead.
Qed.

(** X20: whatever the reply, the parser's results carry no blanks at their
    ends: the content is either the reply itself, untouched, or trimmed;
    code, when present, is trimmed; and suggestions, when present, are a
    non-empty list of trimmed strings. *)
Theorem parse_results_trimmed (response : jsstring) :
  (p_content (parseResponse response) = response
   ∨ trimmed (p_content (parseResponse response)))
  ∧ (∀ c, p_code (parseResponse response) = Some c → trimmed c)
  ∧ (∀ l, p_suggestions (parseResponse response) = Some l →
       l ≠ [] ∧ Forall trimmed l).
Proof.
  unfold parseResponse.
  assert ((extract_code response).1 = response
          ∨ trimmed (extract_code response).1) as Hfull.
  { unfold extract_code. destruct (includes fence response); [|by left].
    destruct (exec false code_re response) as [[i st]|]; [|by left].
    destruct (truthy _); [right; apply trim_trimmed|by left]. }
  assert (∀ c, (extract_code response).2 = Some c → trimmed c) as Hcode.
  { unfold extract_code. destruct (includes fence response); [|done].
    destruct (exec false code_re response) as [[i st]|]; [|done].
    destruct (truthy _); simpl; intros c [= <-]; apply trim_trimmed. }
  destruct (extract_code response) as [full code]. simpl in Hfull, Hcode.
  destruct (exec true suggestion_re full) as [[i st]|]; simpl.
  - split; [right; apply trim_trimmed|]. split; [exact Hcode|].
    intros l Hl. case_bool_decide as Hlen; [|done]. injection Hl as <-.
    split; [by destruct (suggestion_lines _); [simpl in Hlen; lia|]|].
    unfold suggestion_lines. apply Forall_fmap, Forall_forall.
    intros line _. apply trim_trimmed.
  - split; [exact Hfull|]. split; [exact Hcode|done].
Qed.

Lemma canonicalize_off (s : jsstring) : canonicalize false <$> s = s.
Proof. induction s as [|c s IH]; [done|]. by rewrite fmap_cons, IH. Qed.

(** X21: the parser reports code only for a reply that holds a complete
    fenced block, an opening and a later closing run of three backticks;
    a reply with a single run of backticks yields no code. *)
Theorem code_needs_fenced_block (response c : jsstring) :
  p_code (parseResponse response) = Some c →
  ∃ a mid b, response = a ++ fence ++ mid ++ fence ++ b.
Proof.
  unfold parseResponse.
  assert ((extract_code response).2 = Some c →
          ∃ a mid b, response = a ++ fence ++ mid ++ fence ++ b) as H.
  { unfold extract_code. destruct (includes fence response); [|done].
    destruct (exec false code_re response) as [[i st]|] eqn:Hx; [|done].
    intros _. unfold exec in Hx.
    apply exec_from_sound in Hx as (a & b & -> & _ & D).
    destruct D as (z1 & [D1 _] & z2 & D2 & z3 & D3 & z4 & D4 & [D5 _]).
    apply lit_match_prefix in D1 as (f1 & E1 & Hf1).
    apply lit_match_prefix in D5 as (f2 & E5 & Hf2).
    rewrite !canonicalize_off in Hf1, Hf2. subst f1 f2.
    apply den_suffix in D2 as [w2 E2]. apply den_suffix in D3 as [w3 E3].
    apply den_suffix in D4 as [w4 E4]. cbn [fst snd] in *.
    exists a, (w2 ++ w3 ++ w4), (at_state st).2.
    rewrite E1, E2, E3, E4, E5. by rewrite <- !app_assoc. }
  destruct (extract_code response) as [full code]. simpl in H.
  destruct (exec true suggestion_re full) as [[i st]|]; simpl; exact H.
Qed.

Lemma code_needs_fenced_block_witness :
  ∃ a mid b, example_reply = a ++ fence ++ mid ++ fence ++ b.
Proof.
  apply (code_needs_fenced_block example_reply (js "print(1)")).
  vm_compute. reflexivity.
Defined.

End ParserMore.

(** ** The send flow as a whole *)

Section SendMore.
Import AppStore AIAssistant.

(** X22: a send with blank input changes nothing.  Any other send adds
    exactly two messages to the transcript, the user's input as typed and
    then one assistant message (the parsed reply, or the fixed error text
    when the chat call threw), clears the input box and ends with the
    typing indicator off; queries and data sources are not touched. *)
Theorem handleSend_adds_two_messages (uuid1 uuid2 : jsstring) (now1 now2 : Z)
    (text response : option jsstring) (height1 height2 : Z) (p : Panel) :
  let userInput :=
    match text with
    | Some t => if truthy t then t else input p
    | None => input p
    end in
  let p' := handleSend uuid1 now1 uuid2 now2 text response height1 height2 p in
  (trim userInput = [] ∧ p' = p)
  ∨ (trim userInput ≠ []
     ∧ aiMessages (store p')
       = aiMessages (store p)
           ++ [mkMessage uuid1 user userInput None None now1;
               match response with
               | Some reply =>
                   mkMessage uuid2 assistant (p_content (parseResponse reply))
                     (p_code (parseResponse reply))
                     (p_suggestions (parseResponse reply)) now2
               | None => mkMessage uuid2 assistant backend_error None None now2
               end]
     ∧ isTyping p' = false ∧ input p' = []
     ∧ queries (store p') = queries (store p)
     ∧ dataSources (store p') = dataSources (store p)).
Proof.
  cbn zeta. unfold handleSend, handleSend_begin.
  destruct (trim _) as [|c u] eqn:E; simpl; [by left|]. right.
  split; [done|].
  unfold handleSend_end, messageAppended, rendered, autoScrollEffect. simpl.
  destruct response, (isAIPanelCollapsed (store p)) eqn:Hc;
    repeat first [rewrite Hc | progress simpl];
    rewrite <- app_assoc; repeat split; done.
Qed.


(** X27: code sent to the sandbox reaches the notebook: when the
    identifier drawn for the new query is not the id of a held query and
    the code is not empty, the notebook mounted afterwards starts with
    that code in its third cell, idle and without output, after the two
    fixed cells; its ids are pairwise distinct. *)
Theorem sandbox_code_seeds_notebook (uuid : jsstring) (created updated : Z)
    (code prompt : jsstring) (p : Panel) :
  uuid ∉ q_id <$> queries (store p) →
  code ≠ [] →
  let p' := handleSendToSandbox uuid created updated code prompt p in
  Notebook.initialCells (getActiveQuery (store p')) !! 2%nat
  = Some (Notebook.mkCell (js "3") code None Notebook.idle Notebook.code_cell)
  ∧ length (Notebook.initialCells (getActiveQuery (store p'))) = 3%nat
  ∧ NoDup (Notebook.id <$> Notebook.initialCells (getActiveQuery (store p')))
  ∧ aiMessages (store p') = aiMessages (store p).
Proof.
  intros Hf Hc. cbn zeta. unfold handleSendToSandbox.
  assert (getActiveQuery (addQuery uuid created updated prompt code (store p)).2
          = Some (addQuery uuid created updated prompt code (store p)).1) as E.
  { unfold getActiveQuery. simpl.
    match goal with
    | |- list_find ?P (?l ++ [?q]) ≫= _ = _ =>
        assert (list_find P (l ++ [q]) = Some (length l, q)) as ->; [|done]
    end.
    apply list_find_Some. split; [|split].
    - by rewrite list_lookup_middle.
    - done.
    - intros j y Hj Hlt. rewrite lookup_app_l in Hj by done.
      intros [= Hy]. apply Hf. rewrite <- Hy. apply list_elem_of_fmap.
      exists y. split; [done|]. by eapply list_elem_of_lookup_2. }
  cbn [store with_store]. rewrite E. simpl.
  split; [by destruct code|]. split; [done|]. split; [|done].
  apply (bool_decide_unpack _). vm_compute. exact I.
Qed.

Lemma sandbox_code_seeds_notebook_witness :
  Notebook.initialCells
    (getActiveQuery
       (store (handleSendToSandbox (js "q-2") 1 1 (js "df.head()") (js "show")
                 (mkPanel one_query [] false true 0%Q 0 0)))) !! 2%nat
  = Some (Notebook.mkCell (js "3") (js "df.head()") None Notebook.idle
            Notebook.code_cell).
Proof.
  refine (proj1 (sandbox_code_seeds_notebook (js "q-2") 1 1 (js "df.head()")
                   (js "show") (mkPanel one_query [] false true 0%Q 0 0) _ _)).
  - simpl. intros H. apply list_elem_of_singleton in H. discriminate H.
  - discriminate.
Defined.

End SendMore.

(** ** The cluster selector *)

Section ClusterFacts.
Import ClusterSelector.

Section Remote.
Context {World : Type}.
Variable listClusters : World → option (list Cluster) * World.

(** X23: [loadClusters] never replaces a selection that exists.  With
    none, it selects the first cluster of the received list, in list
    order, whose state is RUNNING, and selects nothing when no cluster
    is running; when the call throws, the list shown stays as it was and
    nothing is selected.  Loading ends off in every case. *)
Theorem loadClusters_selects_first_running (selectedId : option jsstring)
    (clusters : list Cluster) (w : World) :
  let r := loadClusters listClusters selectedId clusters w in
  r.1.2 = false
  ∧ (is_Some (chosen selectedId) → r.1.1.2 = None)
  ∧ ((listClusters w).1 = None → r.1.1.1 = clusters ∧ r.1.1.2 = None)
  ∧ (∀ data, (listClusters w).1 = Some data →
       r.1.1.1 = data
       ∧ (chosen selectedId = None →
          match r.1.1.2 with
          | Some i =>
              ∃ k c, data !! k = Some c ∧ cluster_id c = i ∧ state c = RUNNING
                     ∧ ∀ j c', data !! j = Some c' → (j < k)%nat →
                         state c' ≠ RUNNING
          | None => ∀ c, c ∈ data → state c ≠ RUNNING
          end)).
Proof.
  cbn zeta. unfold loadClusters.
  destruct (listClusters w) as [[data|] w']; simpl.
  2:{ repeat split; try done. }
  split; [done|]. split; [by intros [i ->]|]. split; [done|].
  intros data' [= <-]. split; [done|]. intros ->.
  case_bool_decide as Hlen.
  - destruct (list_find _ data) as [[k c]|] eqn:Hfind; simpl.
    + apply list_find_Some in Hfind as (Hk & Hc & Hbefore).
      exists k, c. repeat split; done.
    + intros c Hc. eapply list_find_None in Hfind.
      by eapply Forall_forall in Hfind.
  - destruct data; [|simpl in Hlen; lia]. by intros c Hc%elem_of_nil.
Qed.
End Remote.




End ClusterFacts.

(** ** The chat client *)

Section ChatFacts.
Import ChatService.

Section Remote.
Context {World : Type}.
Variable post : SendRequest → World → option ChatResponse * World.
Variable getHistoryOf : jsstring → World → option History * World.
Variable deleteHistoryOf : jsstring → World → bool * World.

(** The session id a call leaves behind. *)
Lemma conversation_cons (message agent : jsstring)
    (rest : list (jsstring * jsstring)) (session : option jsstring) (w : World) :
  ∃ r w',
    post (mkRequest message agent session) w = (r, w')
    ∧ (conversation post ((message, agent) :: rest) session w).1.1
      = (mkRequest message agent session, r)
        :: (conversation post rest
              (match r with Some d => Some (session_id d) | None => session end)
              w').1.1
    ∧ (conversation post ((message, agent) :: rest) session w).1.2
      = (conversation post rest
           (match r with Some d => Some (session_id d) | None => session end)
           w').1.2.
Proof.
  cbn [conversation]. unfold sendMessage.
  destruct (post _ w) as [[d|] w']; [exists (Some d), w'|exists None, w'];
    (split; [reflexivity|]);
    by destruct (conversation post rest _ w') as [[log s''] w''].
Qed.

(** X25: in a run of [sendMessage] calls the first request carries the
    session id held before, and every later request carries the session
    id of the previous response, or, when the previous call threw, the
    id that call itself sent: a failed call does not lose the
    conversation.  Messages and agents are sent as given, in order. *)
Theorem session_follows_responses (messages : list (jsstring * jsstring))
    (session : option jsstring) (w : World) :
  let log := (conversation post messages session w).1.1 in
  (∀ rq rs, log !! 0%nat = Some (rq, rs) → rq_session rq = session)
  ∧ (∀ k rq1 rs1 rq2 rs2,
       log !! k = Some (rq1, rs1) → log !! S k = Some (rq2, rs2) →
       rq_session rq2
       = match rs1 with
         | Some d => Some (session_id d)
         | None => rq_session rq1
         end)
  ∧ (λ e, (rq_message e.1, rq_agent e.1)) <$> log = messages.
Proof.
  cbn zeta. revert session w.
  induction messages as [|[message agent] rest IH]; intros session w.
  - simpl. repeat split; intros; by simplify_eq.
  - destruct (conversation_cons message agent rest session w)
      as (r & w' & Hp & -> & _).
    specialize (IH (match r with Some d => Some (session_id d)
                            | None => session end) w').
    destruct IH as (IH0 & IHk & IHm).
    split; [|split].
    + by intros rq rs [= <- <-].
    + intros [|k] rq1 rs1 rq2 rs2 H1 H2; simpl in H1, H2.
      * injection H1 as <- <-. by rewrite (IH0 rq2 rs2 H2).
      * by apply (IHk k rq1 rs1 rq2 rs2).
    + by rewrite fmap_cons, IHm.
Qed.

(** X26: while no session id is held, neither [getHistory] nor
    [clearHistory] contacts the backend, and [getHistory] answers with
    an empty history; [clearHistory] forgets the session only when the
    backend's delete goes through. *)
Theorem history_calls_need_session (session : option jsstring) (w : World) :
  ((session = None ∨ session = Some []) →
     getHistory getHistoryOf session w = (Some (mkHistory [] 0), w, None)
     ∧ clearHistory deleteHistoryOf session w = (session, w, None))
  ∧ (∀ sid, session = Some sid → sid ≠ [] →
       (clearHistory deleteHistoryOf session w).1.1
       = (if (deleteHistoryOf sid w).1 then None else session)
       ∧ (clearHistory deleteHistoryOf session w).2 = Some sid
       ∧ (getHistory getHistoryOf session w).2 = Some sid).
Proof.
  split.
  - by intros [->| ->].
  - intros sid -> Hsid. unfold clearHistory, getHistory.
    destruct sid as [|c sid]; [done|]. simpl.
    by destruct (deleteHistoryOf _ w), (getHistoryOf _ w).
Qed.
End Remote.

End ChatFacts.
